From Stdlib Require Import Rdefinitions Raxioms RIneq Rbasic_fun R_sqrt Epsilon.
From Stdlib Require Import String.
From Stdlib Require Lra.
From HB Require Import structures.
From mathcomp Require Import boot order algebra.

Set Implicit Arguments.
Unset Strict Implicit.
Unset Printing Implicit Defensive.

Import Order.TTheory GRing.Theory Num.Theory.

Local Open Scope ring_scope.

(** * Real numbers as a MathComp real field

    The filters compute with numpy floating-point arrays; the properties
    below are those of the underlying real arithmetic, so array entries are
    Stdlib reals, equipped here with the MathComp field and order structures
    that the matrix library works over. *)

Definition eqr (x y : R) : bool := if Req_EM_T x y then true else false.

Lemma eqrP : Equality.axiom eqr.
Proof. by move=> x y; rewrite /eqr; case: Req_EM_T => h; constructor. Qed.

HB.instance Definition _ := hasDecEq.Build R eqrP.

Definition pickr (P : pred R) (n : nat) : option R :=
  let x := epsilon (inhabits R0) P in if P x then Some x else None.

Lemma pickr_some P n x : pickr P n = Some x -> P x.
Proof. by rewrite /pickr; case: ifP => // Px [<-]. Qed.

Lemma pickr_ex (P : pred R) : (exists x, P x) -> exists n, pickr P n.
Proof.
move=> exP; exists 0%N; rewrite /pickr.
by rewrite (epsilon_spec (inhabits R0) P exP).
Qed.

Lemma pickr_ext (P Q : pred R) : P =1 Q -> pickr P =1 pickr Q.
Proof.
move=> eqPQ n; rewrite /pickr.
have -> : P = Q by apply: FunctionalExtensionality.functional_extensionality.
by [].
Qed.

HB.instance Definition _ := hasChoice.Build R pickr_some pickr_ex pickr_ext.

Lemma RplusA : associative Rplus.
Proof. by move=> x y z; rewrite Rplus_assoc. Qed.

HB.instance Definition _ :=
  GRing.isZmodule.Build R RplusA Rplus_comm Rplus_0_l Rplus_opp_l.

Lemma RmultA : associative Rmult.
Proof. by move=> x y z; rewrite Rmult_assoc. Qed.

Lemma R1_neq0 : R1 != R0 :> R.
Proof. by apply/eqP; exact: R1_neq_R0. Qed.

HB.instance Definition _ :=
  GRing.Zmodule_isComNzRing.Build R
    RmultA Rmult_comm Rmult_1_l Rmult_plus_distr_r R1_neq0.

Lemma RinvK (x : R) : x != 0 -> Rinv x * x = 1.
Proof. by move=> /eqP x0; exact: Rinv_l. Qed.

HB.instance Definition _ := GRing.ComNzRing_isField.Build R RinvK Rinv_0.

Definition Rleb (x y : R) : bool := if Rle_dec x y then true else false.
Definition Rltb (x y : R) : bool := if Rlt_dec x y then true else false.

Lemma RlebP (x y : R) : reflect (Rle x y) (Rleb x y).
Proof. by rewrite /Rleb; case: Rle_dec => h; constructor. Qed.

Lemma RltbP (x y : R) : reflect (Rlt x y) (Rltb x y).
Proof. by rewrite /Rltb; case: Rlt_dec => h; constructor. Qed.

Lemma Rleb0D (x y : R) : Rleb 0 x -> Rleb 0 y -> Rleb 0 (x + y).
Proof. by move=> /RlebP hx /RlebP hy; apply/RlebP; exact: Rplus_le_le_0_compat. Qed.

Lemma Rleb0M (x y : R) : Rleb 0 x -> Rleb 0 y -> Rleb 0 (x * y).
Proof. by move=> /RlebP hx /RlebP hy; apply/RlebP; exact: Rmult_le_pos. Qed.

Lemma Rleb0_anti (x : R) : Rleb 0 x -> Rleb x 0 -> x = 0.
Proof. by move=> /RlebP hx /RlebP hy; exact: Rle_antisym. Qed.

Lemma Rleb_sub (x y : R) : Rleb 0 (y - x) = Rleb x y.
Proof.
rewrite /GRing.add /GRing.opp /GRing.zero /=.
by apply/RlebP/RlebP => h; Lra.lra.
Qed.

Lemma Rleb0_total (x : R) : Rleb 0 x || Rleb x 0.
Proof.
by apply/orP; case: (Rle_dec 0 x) => h; [left|right]; apply/RlebP => //;
   apply: Rlt_le; apply: Rnot_le_lt.
Qed.

Lemma RabsN (x : R) : Rabs (- x) = Rabs x.
Proof. exact: Rabs_Ropp. Qed.

Lemma Rabs_ge0 (x : R) : Rleb 0 x -> Rabs x = x.
Proof. by move=> /RlebP h; exact: Rabs_pos_eq. Qed.

Lemma Rltb_def (x y : R) : Rltb x y = (y != x) && Rleb x y.
Proof.
apply/RltbP/andP => [h|[/eqP h /RlebP [] //]].
  split; last by apply/RlebP; exact: Rlt_le.
  by apply/eqP => e; move: h; rewrite e; exact: Rlt_irrefl.
by move=> e; case: h.
Qed.

HB.instance Definition _ :=
  Num.IntegralDomain_isLeReal.Build R
    Rleb0D Rleb0M Rleb0_anti Rleb_sub Rleb0_total RabsN Rabs_ge0 Rltb_def.

(** From here on numbers of type [R] are written in the ring notations. *)
Bind Scope ring_scope with R.

(** The power [x ** 0.5] used throughout the updates. *)
Definition np_sqrt (x : R) : R := sqrt x.

(** * numpy array operations

    Two-dimensional arrays of shape (n, d) are matrices ['M[R]_(n, d)];
    one-dimensional arrays of length d are row vectors ['rV[R]_d], which is
    how numpy broadcasts them against the rows of a two-dimensional array.

    Quotients and square roots are those of the real field, where a
    quotient by zero and the root of a negative number are zero; numpy
    gives inf or nan there.  The arrays of the model are those of the code
    wherever no divisor is zero and no root is taken of a negative
    number. *)

Section NumpyArrays.

Variables (n d : nat).

(** [A.mean(0)]: mean of every column. *)
Definition np_mean0 (A : 'M[R]_(n, d)) : 'rV[R]_d :=
  \row_j ((\sum_i A i j) / n%:R).

(** [A - v], [v - A], [v + A] with the vector [v] broadcast over the rows. *)
Definition np_sub_row (A : 'M[R]_(n, d)) (v : 'rV[R]_d) : 'M[R]_(n, d) :=
  \matrix_(i, j) (A i j - v 0 j).

Definition np_row_sub (v : 'rV[R]_d) (A : 'M[R]_(n, d)) : 'M[R]_(n, d) :=
  \matrix_(i, j) (v 0 j - A i j).

Definition np_row_add (v : 'rV[R]_d) (A : 'M[R]_(n, d)) : 'M[R]_(n, d) :=
  \matrix_(i, j) (v 0 j + A i j).

(** [A * v] and [A / v]: every column j scaled by [v[j]]. *)
Definition np_mul_row (A : 'M[R]_(n, d)) (v : 'rV[R]_d) : 'M[R]_(n, d) :=
  \matrix_(i, j) (A i j * v 0 j).

Definition np_div_row (A : 'M[R]_(n, d)) (v : 'rV[R]_d) : 'M[R]_(n, d) :=
  \matrix_(i, j) (A i j / v 0 j).

(** [A / c] and [A ** 2], elementwise. *)
Definition np_div_scalar (A : 'M[R]_(n, d)) (c : R) : 'M[R]_(n, d) :=
  map_mx (fun a => a / c) A.

Definition np_square (A : 'M[R]_(n, d)) : 'M[R]_(n, d) :=
  map_mx (fun a => a ^+ 2) A.

(** [A.std(0)]: numpy's default standard deviation of every column
    (no degrees-of-freedom correction). *)
Definition np_std0 (A : 'M[R]_(n, d)) : 'rV[R]_d :=
  map_mx np_sqrt (np_mean0 (np_square (np_sub_row A (np_mean0 A)))).

End NumpyArrays.

(** [np.clip(w, -np.inf, hi)], [w.max()] and [np.any(w > c)] on a vector.
    The updates take [w.max()] only after finding an entry above 1, so the
    value given to an empty vector is never used. *)
Definition np_clip_above n (w : 'rV[R]_n) (hi : R) : 'rV[R]_n :=
  map_mx (fun a => Num.min a hi) w.

Definition np_max n (w : 'rV[R]_n) : R :=
  if [seq w 0 j | j <- enum 'I_n] is a :: s then foldl Num.max a s else 0.

Definition np_any_gt n (w : 'rV[R]_n) (c : R) : bool :=
  [exists j, c < w 0 j].

(** * numpy.linalg

    The linear-algebra routines are an external library.  They enter the
    model as the functions below; what a proof needs of their results is
    stated as a contract on the particular call. *)

Record linalg := Linalg {
  la_eigh : forall n, 'M[R]_n -> 'rV[R]_n * 'M[R]_n;
  la_solve : forall n m, 'M[R]_n -> 'M[R]_(n, m) -> 'M[R]_(n, m);
  la_pinv : forall m n, 'M[R]_(m, n) -> 'M[R]_(n, m);
  la_svd : forall m n, 'M[R]_(m, n) -> 'M[R]_m * 'rV[R]_(minn m n) * 'M[R]_n
}.

(** [eigh a] returns [(w, v)] with the columns of [v] orthonormal
    eigenvectors of the symmetric [a] for the eigenvalues [w]. *)
Definition eigh_spec n (a : 'M[R]_n) (wv : 'rV[R]_n * 'M[R]_n) : Prop :=
  wv.2^T *m wv.2 = 1%:M /\ a = wv.2 *m diag_mx wv.1 *m wv.2^T.

(** [solve a b] returns [x] with [a x = b] when [a] is nonsingular; on a
    singular [a] the routine raises, and the value the model gives it
    stands for nothing. *)
Definition solve_spec n m (a : 'M[R]_n) (b x : 'M[R]_(n, m)) : Prop :=
  a \in unitmx -> a *m x = b.

(** The m x n matrix with the vector [s] on its leading diagonal. *)
Definition svd_diag m n (s : 'rV[R]_(minn m n)) : 'M[R]_(m, n) :=
  \matrix_(i, j)
    if (i == j :> nat) then oapp (fun k => s 0 k) 0 (insub (i : nat)) else 0.

(** [svd a] returns [(u, s, vh)] with [u] and [vh] orthogonal, [s]
    non-negative and [a = u diag(s) vh]. *)
Definition svd_spec m n (a : 'M[R]_(m, n))
    (usv : 'M[R]_m * 'rV[R]_(minn m n) * 'M[R]_n) : Prop :=
  [/\ usv.1.1^T *m usv.1.1 = 1%:M, usv.2 *m usv.2^T = 1%:M,
      (forall k, 0 <= usv.1.2 0 k) &
      a = usv.1.1 *m svd_diag usv.1.2 *m usv.2].

(** A symmetric matrix is positive definite when its quadratic form is
    positive away from zero. *)
Definition posdef n (a : 'M[R]_n) : Prop :=
  a^T = a /\ forall v : 'rV[R]_n, v != 0 -> 0 < (v *m a *m v^T) 0 0.

(** * The filters *)

(** What an analysis update returns: the analysis ensemble with its mean
    and spread. *)
Definition analysis (N Dz : nat) : Type :=
  ('M[R]_(N, Dz) * 'rV[R]_Dz * 'rV[R]_Dz)%type.

(** The one warning the updates raise, with the value it reports. *)
Inductive warning : Type :=
  EigenvaluesOutsideUnitCircle (max : R).

Section Filters.

Variable la : linalg.
Variables (N Dz Dx : nat).

(** ** EnsembleKalmanFilter (perturbed observations) *)

Section PerturbedObservations.

(** The observation sampler draws from the random generator it was built
    with: the generator state is threaded through the call. *)
Variable rng : Type.

Record EnsembleKalmanFilter := {
  observation_sampler : 'M[R]_(N, Dz) -> nat -> rng -> 'M[R]_(N, Dx) * rng
}.

Definition enkf_analysis_update (self : EnsembleKalmanFilter)
    (z_forecast : 'M[R]_(N, Dz)) (x_observed : 'rV[R]_Dx) (time_index : nat)
    (g : rng) : analysis N Dz * rng :=
  let: (x_forecast, g') := observation_sampler self z_forecast time_index g in
  let dz_forecast := np_sub_row z_forecast (np_mean0 z_forecast) in
  let dx_forecast := np_sub_row x_forecast (np_mean0 x_forecast) in
  let dx_error := np_row_sub x_observed x_forecast in
  let z_analysis :=
    z_forecast + (dx_error *m la_pinv la dx_forecast) *m dz_forecast in
  ((z_analysis, np_mean0 z_analysis, np_std0 z_analysis), g').

End PerturbedObservations.

(** ** EnsembleSquareRootFilter *)

Record EnsembleSquareRootFilter := {
  esrf_observation_func : 'M[R]_(N, Dz) -> nat -> 'M[R]_(N, Dx);
  obser_noise_matrix : 'M[R]_Dx;
  esrf_warn : bool
}.

Definition obser_noise_covar (self : EnsembleSquareRootFilter) : 'M[R]_Dx :=
  obser_noise_matrix self *m (obser_noise_matrix self)^T.

(** The warning raised when [warn] is set and an eigenvalue exceeds one. *)
Definition eigenvalue_warnings n (warn : bool) (eigval_m : 'rV[R]_n) :
    seq warning :=
  if warn && np_any_gt eigval_m 1
  then [:: EigenvaluesOutsideUnitCircle (np_max eigval_m)] else [::].

Section SquareRootUpdate.

Variables (self : EnsembleSquareRootFilter).
Variables (z_forecast : 'M[R]_(N, Dz)) (x_observed : 'rV[R]_Dx).
Variable time_index : nat.

Definition esrf_n_particles : R := N%:R.
Definition esrf_z_mean_forecast := np_mean0 z_forecast.
Definition esrf_dz_forecast := np_sub_row z_forecast esrf_z_mean_forecast.
Definition esrf_x_forecast := esrf_observation_func self z_forecast time_index.
Definition esrf_x_mean_forecast := np_mean0 esrf_x_forecast.
Definition esrf_dx_forecast := np_sub_row esrf_x_forecast esrf_x_mean_forecast.

Definition esrf_c_matrix : 'M[R]_Dx :=
  esrf_dx_forecast^T *m esrf_dx_forecast +
  (esrf_n_particles - 1) *: obser_noise_covar self.

Definition esrf_eigval_c := (la_eigh la esrf_c_matrix).1.
Definition esrf_eigvec_c := (la_eigh la esrf_c_matrix).2.

Definition esrf_k_gain : 'M[R]_(Dx, Dz) :=
  np_div_row esrf_eigvec_c esrf_eigval_c *m esrf_eigvec_c^T *m
  (esrf_dx_forecast^T *m esrf_dz_forecast).

Definition esrf_z_mean_analysis : 'rV[R]_Dz :=
  esrf_z_mean_forecast + (x_observed - esrf_x_mean_forecast) *m esrf_k_gain.

Definition esrf_m_matrix : 'M[R]_N :=
  esrf_dx_forecast *m np_div_row esrf_eigvec_c esrf_eigval_c *m
  esrf_eigvec_c^T *m esrf_dx_forecast^T.

Definition esrf_eigval_m := (la_eigh la esrf_m_matrix).1.
Definition esrf_eigvec_m := (la_eigh la esrf_m_matrix).2.

(** The numbers whose square root the update takes. *)
Definition esrf_sqrt_args : 'rV[R]_N :=
  map_mx (fun a => `|1 - a|) (np_clip_above esrf_eigval_m 1).

Definition esrf_sqrt_matrix : 'M[R]_N :=
  np_mul_row esrf_eigvec_m (map_mx np_sqrt esrf_sqrt_args) *m esrf_eigvec_m^T.

Definition esrf_dz_analysis : 'M[R]_(N, Dz) :=
  esrf_sqrt_matrix *m esrf_dz_forecast.

Definition esrf_analysis_update : analysis N Dz * seq warning :=
  ((np_row_add esrf_z_mean_analysis esrf_dz_analysis,
    esrf_z_mean_analysis,
    map_mx np_sqrt (np_mean0 (np_square esrf_dz_analysis))),
   eigenvalue_warnings (esrf_warn self) esrf_eigval_m).

End SquareRootUpdate.

(** ** WoodburyEnsembleSquareRootFilter *)

(** The precision is a scalar, a one-dimensional array of diagonal entries
    or a two-dimensional array. *)
Inductive precision : Type :=
  | PreciScalar (p : R)
  | PreciDiag (p : 'rV[R]_Dx)
  | PreciDense (p : 'M[R]_Dx).

Record WoodburyEnsembleSquareRootFilter := {
  wesrf_observation_func : 'M[R]_(N, Dz) -> nat -> 'M[R]_(N, Dx);
  obser_noise_preci : precision;
  wesrf_warn : bool
}.

Definition obser_noise_preci_is_dense
    (self : WoodburyEnsembleSquareRootFilter) : bool :=
  if obser_noise_preci self is PreciDense _ then true else false.

(** The precision matrix a precision argument stands for: a scalar is an
    isotropic precision (the identity scaled by it), a one-dimensional
    array the diagonal of a diagonal precision. *)
Definition preci_matrix (p : precision) : 'M[R]_Dx :=
  match p with
  | PreciScalar p => p%:M
  | PreciDiag p => diag_mx p
  | PreciDense p => p
  end.

Section WoodburyUpdate.

Variables (self : WoodburyEnsembleSquareRootFilter).
Variables (z_forecast : 'M[R]_(N, Dz)) (x_observed : 'rV[R]_Dx).
Variable time_index : nat.

Definition wesrf_n_particles : R := N%:R.
Definition wesrf_z_mean_forecast := np_mean0 z_forecast.
Definition wesrf_dz_forecast := np_sub_row z_forecast wesrf_z_mean_forecast.
Definition wesrf_x_forecast :=
  wesrf_observation_func self z_forecast time_index.
Definition wesrf_x_mean_forecast := np_mean0 wesrf_x_forecast.
Definition wesrf_dx_forecast :=
  np_sub_row wesrf_x_forecast wesrf_x_mean_forecast.
Definition wesrf_dx_error : 'rV[R]_Dx := x_observed - wesrf_x_mean_forecast.

(** The dense branch is the one taken when [obser_noise_preci_is_dense];
    a scalar or a vector multiplies the deviations elementwise. *)
Definition wesrf_a_matrix : 'M[R]_(Dx, N) :=
  match obser_noise_preci self with
  | PreciDense p => p *m wesrf_dx_forecast^T
  | PreciDiag p => (np_mul_row wesrf_dx_forecast p)^T
  | PreciScalar p => (p *: wesrf_dx_forecast)^T
  end.

Definition wesrf_b_vector : 'rV[R]_N := wesrf_dx_error *m wesrf_a_matrix.
Definition wesrf_c_matrix : 'M[R]_N := wesrf_dx_forecast *m wesrf_a_matrix.
Definition wesrf_d_matrix : 'M[R]_N :=
  (wesrf_n_particles - 1) *: 1%:M + wesrf_c_matrix.
Definition wesrf_e_matrix : 'M[R]_N :=
  la_solve la wesrf_d_matrix wesrf_c_matrix.

Definition wesrf_z_mean_analysis : 'rV[R]_Dz :=
  wesrf_z_mean_forecast +
  np_div_scalar
    ((wesrf_b_vector - wesrf_b_vector *m wesrf_e_matrix) *m wesrf_dz_forecast)
    (wesrf_n_particles - 1).

Definition wesrf_m_matrix : 'M[R]_N :=
  np_div_scalar (wesrf_c_matrix - wesrf_c_matrix *m wesrf_e_matrix)
    (wesrf_n_particles - 1).

Definition wesrf_eigval_m := (la_eigh la wesrf_m_matrix).1.
Definition wesrf_eigvec_m := (la_eigh la wesrf_m_matrix).2.

(** The numbers whose square root the update takes. *)
Definition wesrf_sqrt_args : 'rV[R]_N :=
  map_mx (fun a => 1 - a) (np_clip_above wesrf_eigval_m 1).

Definition wesrf_sqrt_matrix : 'M[R]_N :=
  np_mul_row wesrf_eigvec_m (map_mx np_sqrt wesrf_sqrt_args) *m
  wesrf_eigvec_m^T.

Definition wesrf_dz_analysis : 'M[R]_(N, Dz) :=
  wesrf_sqrt_matrix *m wesrf_dz_forecast.

Definition wesrf_analysis_update : analysis N Dz * seq warning :=
  ((np_row_add wesrf_z_mean_analysis wesrf_dz_analysis,
    wesrf_z_mean_analysis,
    map_mx np_sqrt (np_mean0 (np_square wesrf_dz_analysis))),
   eigenvalue_warnings (wesrf_warn self) wesrf_eigval_m).

End WoodburyUpdate.

(** ** LocalEnsembleTransformKalmanFilter *)

Record LocalEnsembleTransformKalmanFilter := {
  inflation_factor : R
}.

Section LocalUpdate.

Variables (self : LocalEnsembleTransformKalmanFilter).
Variables (z_forecast : 'M[R]_(N, Dz)) (x_forecast : 'M[R]_(N, Dx)).
Variables (x_observed obs_noise_std localisation_weights : 'rV[R]_Dx).

Definition letkf_n_p : R := N%:R.
Definition letkf_z_mean_forecast := np_mean0 z_forecast.
Definition letkf_dz_forecast := np_sub_row z_forecast letkf_z_mean_forecast.
Definition letkf_x_mean_forecast := np_mean0 x_forecast.
Definition letkf_dx_forecast := np_sub_row x_forecast letkf_x_mean_forecast.

Definition letkf_eff_inv_obs_var : 'rV[R]_Dx :=
  \row_j (localisation_weights 0 j / obs_noise_std 0 j ^+ 2).

Definition letkf_svd :=
  la_svd la
    (np_mul_row letkf_dx_forecast (map_mx np_sqrt letkf_eff_inv_obs_var)).
Definition letkf_eigvec_p : 'M[R]_N := letkf_svd.1.1.
Definition letkf_sing_val : 'rV[R]_(minn N Dx) := letkf_svd.1.2.

(** [ones(n_p) * (n_p - 1) / inflation_factor], then [sing_val ** 2] added
    to the leading entries. *)
Definition letkf_eigval_p_inv : 'rV[R]_N :=
  \row_i (1 * (letkf_n_p - 1) / inflation_factor self +
          oapp (fun k : 'I_(minn N Dx) => letkf_sing_val 0 k ^+ 2) 0
               (insub (i : nat))).

Definition letkf_eigval_p : 'rV[R]_N :=
  map_mx (fun a => 1 / a) letkf_eigval_p_inv.

Definition letkf_dw_matrix : 'M[R]_N :=
  np_sqrt (letkf_n_p - 1) *:
  (np_mul_row letkf_eigvec_p (map_mx np_sqrt letkf_eigval_p) *m
   letkf_eigvec_p^T).

Definition letkf_d_vector : 'cV[R]_N :=
  np_mul_row letkf_dx_forecast letkf_eff_inv_obs_var *m
  (x_observed - letkf_x_mean_forecast)^T.

Definition letkf_w_mean : 'cV[R]_N :=
  letkf_eigvec_p *m
  (\col_i (letkf_eigval_p 0 i * (letkf_eigvec_p^T *m letkf_d_vector) i 0)).

(** [w_mean[None] + dw_matrix]: entry (i, j) is [w_mean[j] + dw[i, j]]. *)
Definition letkf_w_matrix : 'M[R]_N :=
  \matrix_(i, j) (letkf_w_mean j 0 + letkf_dw_matrix i j).

Definition local_analysis_update : 'M[R]_(N, Dz) :=
  np_row_add letkf_z_mean_forecast (letkf_w_matrix *m letkf_dz_forecast).

End LocalUpdate.

End Filters.

Arguments PreciScalar {Dx} p.

(** The warning condition as the specification words it: some eigenvalue
    exceeds the bound 1 by more than a tolerance. *)
Definition exceeds_bound_by n (tol : R) (eigval_m : 'rV[R]_n) : Prop :=
  exists j, 1 + tol < eigval_m 0 j.

(** * A worked example

    Two particles, one state and one observed component, identity
    observation operator, unit noise.  The library routines below are exact
    on the matrices this example hands them: [eigh] on diagonal matrices,
    [solve] on nonsingular systems, [pinv] on matrices of full column rank
    and [svd] on zero matrices. *)

Definition ex_eigh n (a : 'M[R]_n) : 'rV[R]_n * 'M[R]_n :=
  (\row_j a j j, 1%:M).

Definition ex_solve n m (a : 'M[R]_n) (b : 'M[R]_(n, m)) : 'M[R]_(n, m) :=
  invmx a *m b.

Definition ex_pinv m n (a : 'M[R]_(m, n)) : 'M[R]_(n, m) :=
  invmx (a^T *m a) *m a^T.

Definition ex_svd m n (a : 'M[R]_(m, n)) :
    'M[R]_m * 'rV[R]_(minn m n) * 'M[R]_n :=
  (1%:M, 0, 1%:M).

Definition ex_linalg : linalg := Linalg ex_eigh ex_solve ex_pinv ex_svd.

Definition ex_obs (z : 'M[R]_(2, 1)) (t : nat) : 'M[R]_(2, 1) := z.
Definition ex_obs1 (z : 'M[R]_(1, 1)) (t : nat) : 'M[R]_(1, 1) := z.

Definition ex_z : 'M[R]_(2, 1) := \matrix_(i, j) (i : nat)%:R.
Definition ex_z1 : 'M[R]_(1, 1) := 1%:M.
Definition ex_x : 'rV[R]_1 := const_mx 1.

Definition ex_sq : EnsembleSquareRootFilter 2 1 1 :=
  Build_EnsembleSquareRootFilter ex_obs 1%:M true.
Definition ex_wb : WoodburyEnsembleSquareRootFilter 2 1 1 :=
  Build_WoodburyEnsembleSquareRootFilter ex_obs (PreciScalar 1) true.
Definition ex_sq1 : EnsembleSquareRootFilter 1 1 1 :=
  Build_EnsembleSquareRootFilter ex_obs1 1%:M true.
Definition ex_wb1 : WoodburyEnsembleSquareRootFilter 1 1 1 :=
  Build_WoodburyEnsembleSquareRootFilter ex_obs1 (PreciScalar 1) true.
Definition ex_lt : LocalEnsembleTransformKalmanFilter :=
  Build_LocalEnsembleTransformKalmanFilter 1.

(** ** An engineered noise precision

    Two particles at 1 and -1, observed directly, with the (negative)
    scalar precision [- (1 + tol) / (2 tol)]: the matrix m of the Woodbury
    update then has the eigenvalues 0 and [1 + tol].  [eng_eigh] and
    [eng_solve] are the eigendecomposition of m and the solution of the
    linear system for this input, in closed form. *)

Section EngineeredPrecision.

Variable tol : R.

Definition eng_preci : R := - (1 + tol) / (2 * tol).

Definition eng_z : 'M[R]_(2, 1) :=
  \matrix_(i, j) (if (i : nat) == 0%N then 1 else - 1).

Definition eng_wb : WoodburyEnsembleSquareRootFilter 2 1 1 :=
  Build_WoodburyEnsembleSquareRootFilter ex_obs (PreciScalar eng_preci) true.

Definition eng_eigh n (a : 'M[R]_n) : 'rV[R]_n * 'M[R]_n :=
  (\row_j (if (j : nat) == 1%N then 1 + tol else 0),
   \matrix_(i, j) (if ((i : nat) == 1%N) && ((j : nat) == 1%N)
                   then - (np_sqrt 2)^-1 else (np_sqrt 2)^-1)).

Definition eng_solve n m (a : 'M[R]_n) (b : 'M[R]_(n, m)) : 'M[R]_(n, m) :=
  (- tol) *: b.

Definition eng_linalg : linalg := Linalg eng_eigh eng_solve ex_pinv ex_svd.

End EngineeredPrecision.

(** * Array shapes

    numpy checks shapes when an operation runs: operands that do not
    conform make that operation raise.  To see where an update can fail,
    each update is traced here on the shapes of its arrays alone; an update
    is a sequence of assignments, and the trace lists the assignments that
    completed.  Shapes are lists of dimensions; the external observation
    functions return an array of a shape of their own. *)

Module Shapes.

Local Open Scope string_scope.
Local Open Scope nat_scope.

Definition shape : Type := seq nat.

(** The exceptions numpy raises on ill-shaped operands. *)
Inductive error : Type := ValueError | LinAlgError | IndexError | AxisError.

Inductive outcome (A : Type) : Type :=
  | Returned (a : A)
  | Raised (e : error).

Arguments Returned {A} a.
Arguments Raised {A} e.

Definition obind A B (r : outcome A) (f : A -> outcome B) : outcome B :=
  match r with
  | Returned a => f a
  | Raised e => Raised e
  end.

Notation "x <~ r ;; k" := (obind r (fun x => k))
  (at level 100, r at next level, right associativity).
Notation "' p <~ r ;; k" := (obind r (fun x => let: p := x in k))
  (at level 100, p pattern, r at next level, right associativity).

(** A traced computation: the assignments completed, and how it ended. *)
Definition comp (A : Type) : Type := (seq string * outcome A)%type.

Definition ret A (a : A) : comp A := ([::], Returned a).

Definition bind A B (c : comp A) (f : A -> comp B) : comp B :=
  match c with
  | (l, Returned a) => let: (l', r) := f a in (cat l l', r)
  | (l, Raised e) => (l, Raised e)
  end.

(** The assignment [name = expression]. *)
Definition assign A (name : string) (r : outcome A) : comp A :=
  match r with
  | Returned a => ([:: name], Returned a)
  | Raised e => ([::], Raised e)
  end.

Notation "x <- c ;; k" := (bind c (fun x => k))
  (at level 100, c at next level, right associativity).
Notation "' p <- c ;; k" := (bind c (fun x => let: p := x in k))
  (at level 100, p pattern, c at next level, right associativity).

(** ** Shapes of numpy operations *)

(** Broadcasting of two dimensions, then of two shapes aligned at their
    last dimensions. *)
Definition broadcast_dim (a b : nat) : option nat :=
  if a == b then Some a
  else if a == 1 then Some b
  else if b == 1 then Some a
  else None.

Fixpoint broadcast_rev (s1 s2 : shape) : option shape :=
  match s1, s2 with
  | [::], _ => Some s2
  | _, [::] => Some s1
  | a :: s1', b :: s2' =>
      if broadcast_dim a b is Some c then
        if broadcast_rev s1' s2' is Some s then Some (c :: s) else None
      else None
  end.

(** Any elementwise binary operation: [a + b], [a - b], [a * b], [a / b]. *)
Definition np_broadcast (s1 s2 : shape) : outcome shape :=
  if broadcast_rev (rev s1) (rev s2) is Some s then Returned (rev s)
  else Raised ValueError.

(** [a.dot(b)]: a scalar operand multiplies; otherwise the last axis of
    [a] is summed against the second-to-last axis of [b] (its only axis
    when [b] is one-dimensional). *)
Definition np_dot (s1 s2 : shape) : outcome shape :=
  match rev s1, rev s2 with
  | [::], _ => Returned s2
  | _, [::] => Returned s1
  | k :: r1, [:: m] =>
      if k == m then Returned (rev r1) else Raised ValueError
  | k :: r1, p :: m :: r2 =>
      if k == m then Returned (rev r1 ++ rev r2 ++ [:: p])%SEQ
      else Raised ValueError
  end.

(** [a.mean(0)] and [a.std(0)]. *)
Definition np_mean0 (s : shape) : outcome shape :=
  if s is _ :: s' then Returned s' else Raised AxisError.

(** [a.T]. *)
Definition np_T (s : shape) : shape := rev s.

(** [a.shape[i]]. *)
Definition np_shape (s : shape) (i : nat) : outcome nat :=
  if i < size s then Returned (nth 0 s i) else Raised IndexError.

(** [la.eigh(a)]: eigenvalues and eigenvectors of a square matrix. *)
Definition la_eigh (s : shape) : outcome (shape * shape) :=
  if s is [:: n; m] then
    if n == m then Returned ([:: n], [:: n; n]) else Raised LinAlgError
  else Raised LinAlgError.

(** [la.solve(a, b)] with a square [a] and a vector or matrix [b].  Once
    the shapes are accepted the routine raises [LinAlgError] when [a] is
    singular; that depends on the entries of [a], which its shape does not
    determine, so the trace is told whether it is. *)
Definition la_solve (singular : bool) (a b : shape) : outcome shape :=
  if a is [:: n; m] then
    if n == m then
      match b with
      | [:: k] | [:: k; _] =>
          if k == n then
            if singular then Raised LinAlgError else Returned b
          else Raised ValueError
      | _ => Raised ValueError
      end
    else Raised LinAlgError
  else Raised LinAlgError.

(** [la.pinv(a)] and [la.svd(a)] of a matrix. *)
Definition la_pinv (s : shape) : outcome shape :=
  if s is [:: m; n] then Returned [:: n; m] else Raised LinAlgError.

Definition la_svd (s : shape) : outcome (shape * shape * shape) :=
  if s is [:: m; n] then Returned ([:: m; m], [:: minn m n], [:: n; n])
  else Raised LinAlgError.

(** [a[:k] += b] on a vector [a]: [b] must broadcast to the slice. *)
Definition np_iadd_slice (a : shape) (k : nat) (b : shape) : outcome shape :=
  if a is [:: n] then
    slice <~ np_broadcast [:: minn k n] b ;;
    if slice == [:: minn k n] then Returned a else Raised ValueError
  else Raised IndexError.

(** ** The updates on shapes *)

(** EnsembleKalmanFilter.analysis_update *)
Definition enkf_analysis_update (observation_sampler : shape -> shape)
    (z_forecast x_observed : shape) : comp (shape * shape * shape) :=
  x_forecast <- assign "x_forecast" (Returned (observation_sampler z_forecast)) ;;
  dz_forecast <- assign "dz_forecast"
    (m <~ np_mean0 z_forecast ;; np_broadcast z_forecast m) ;;
  dx_forecast <- assign "dx_forecast"
    (m <~ np_mean0 x_forecast ;; np_broadcast x_forecast m) ;;
  dx_error <- assign "dx_error" (np_broadcast x_observed x_forecast) ;;
  z_analysis <- assign "z_analysis"
    (p <~ la_pinv dx_forecast ;;
     g <~ np_dot dx_error p ;;
     u <~ np_dot g dz_forecast ;;
     np_broadcast z_forecast u) ;;
  assign "return"
    (m <~ np_mean0 z_analysis ;;
     s <~ np_mean0 z_analysis ;;
     Returned (z_analysis, m, s)).

(** EnsembleSquareRootFilter.analysis_update *)
Record EnsembleSquareRootFilter : Type := {
  esrf_observation_func : shape -> shape;
  obser_noise_covar : shape
}.

Definition esrf_analysis_update (self : EnsembleSquareRootFilter)
    (z_forecast x_observed : shape) : comp (shape * shape * shape) :=
  n_particles <- assign "n_particles" (np_shape z_forecast 0) ;;
  z_mean_forecast <- assign "z_mean_forecast" (np_mean0 z_forecast) ;;
  dz_forecast <- assign "dz_forecast"
    (np_broadcast z_forecast z_mean_forecast) ;;
  x_forecast <- assign "x_forecast"
    (Returned (esrf_observation_func self z_forecast)) ;;
  x_mean_forecast <- assign "x_mean_forecast" (np_mean0 x_forecast) ;;
  dx_forecast <- assign "dx_forecast"
    (np_broadcast x_forecast x_mean_forecast) ;;
  c_matrix <- assign "c_matrix"
    (g <~ np_dot (np_T dx_forecast) dx_forecast ;;
     np_broadcast g (obser_noise_covar self)) ;;
  '(eigval_c, eigvec_c) <- assign "eigval_c, eigvec_c" (la_eigh c_matrix) ;;
  k_gain <- assign "k_gain"
    (q <~ np_broadcast eigvec_c eigval_c ;;
     i <~ np_dot q (np_T eigvec_c) ;;
     g <~ np_dot (np_T dx_forecast) dz_forecast ;;
     np_dot i g) ;;
  z_mean_analysis <- assign "z_mean_analysis"
    (e <~ np_broadcast x_observed x_mean_forecast ;;
     u <~ np_dot e k_gain ;;
     np_broadcast z_mean_forecast u) ;;
  m_matrix <- assign "m_matrix"
    (q <~ np_broadcast eigvec_c eigval_c ;;
     a <~ np_dot dx_forecast q ;;
     b <~ np_dot a (np_T eigvec_c) ;;
     np_dot b (np_T dx_forecast)) ;;
  '(eigval_m, eigvec_m) <- assign "eigval_m, eigvec_m" (la_eigh m_matrix) ;;
  sqrt_matrix <- assign "sqrt_matrix"
    (q <~ np_broadcast eigvec_m eigval_m ;; np_dot q (np_T eigvec_m)) ;;
  dz_analysis <- assign "dz_analysis" (np_dot sqrt_matrix dz_forecast) ;;
  assign "return"
    (z <~ np_broadcast z_mean_analysis dz_analysis ;;
     s <~ np_mean0 dz_analysis ;;
     Returned (z, z_mean_analysis, s)).

(** WoodburyEnsembleSquareRootFilter.analysis_update; a scalar precision
    has the empty shape, and [d_singular] says whether the matrix handed to
    [la.solve] is singular. *)
Record WoodburyEnsembleSquareRootFilter : Type := {
  wesrf_observation_func : shape -> shape;
  obser_noise_preci : shape
}.

Definition obser_noise_preci_is_dense
    (self : WoodburyEnsembleSquareRootFilter) : bool :=
  size (obser_noise_preci self) == 2.

Definition wesrf_analysis_update (self : WoodburyEnsembleSquareRootFilter)
    (d_singular : bool) (z_forecast x_observed : shape) :
    comp (shape * shape * shape) :=
  n_particles <- assign "n_particles" (np_shape z_forecast 0) ;;
  z_mean_forecast <- assign "z_mean_forecast" (np_mean0 z_forecast) ;;
  dz_forecast <- assign "dz_forecast"
    (np_broadcast z_forecast z_mean_forecast) ;;
  x_forecast <- assign "x_forecast"
    (Returned (wesrf_observation_func self z_forecast)) ;;
  x_mean_forecast <- assign "x_mean_forecast" (np_mean0 x_forecast) ;;
  dx_forecast <- assign "dx_forecast"
    (np_broadcast x_forecast x_mean_forecast) ;;
  dx_error <- assign "dx_error" (np_broadcast x_observed x_mean_forecast) ;;
  a_matrix <- assign "a_matrix"
    (if obser_noise_preci_is_dense self
     then np_dot (obser_noise_preci self) (np_T dx_forecast)
     else (p <~ np_broadcast (obser_noise_preci self) dx_forecast ;;
           Returned (np_T p))) ;;
  b_vector <- assign "b_vector" (np_dot dx_error a_matrix) ;;
  c_matrix <- assign "c_matrix" (np_dot dx_forecast a_matrix) ;;
  d_matrix <- assign "d_matrix"
    (np_broadcast [:: n_particles; n_particles] c_matrix) ;;
  e_matrix <- assign "e_matrix" (la_solve d_singular d_matrix c_matrix) ;;
  z_mean_analysis <- assign "z_mean_analysis"
    (g <~ np_dot b_vector e_matrix ;;
     h <~ np_broadcast b_vector g ;;
     u <~ np_dot h dz_forecast ;;
     np_broadcast z_mean_forecast u) ;;
  m_matrix <- assign "m_matrix"
    (g <~ np_dot c_matrix e_matrix ;; np_broadcast c_matrix g) ;;
  '(eigval_m, eigvec_m) <- assign "eigval_m, eigvec_m" (la_eigh m_matrix) ;;
  sqrt_matrix <- assign "sqrt_matrix"
    (q <~ np_broadcast eigvec_m eigval_m ;; np_dot q (np_T eigvec_m)) ;;
  dz_analysis <- assign "dz_analysis" (np_dot sqrt_matrix dz_forecast) ;;
  assign "return"
    (z <~ np_broadcast z_mean_analysis dz_analysis ;;
     s <~ np_mean0 dz_analysis ;;
     Returned (z, z_mean_analysis, s)).

(** LocalEnsembleTransformKalmanFilter.local_analysis_update *)
Definition local_analysis_update
    (z_forecast x_forecast x_observed obs_noise_std localisation_weights :
       shape) : comp shape :=
  n_p <- assign "n_p" (np_shape z_forecast 0) ;;
  z_mean_forecast <- assign "z_mean_forecast" (np_mean0 z_forecast) ;;
  dz_forecast <- assign "dz_forecast"
    (np_broadcast z_forecast z_mean_forecast) ;;
  x_mean_forecast <- assign "x_mean_forecast" (np_mean0 x_forecast) ;;
  dx_forecast <- assign "dx_forecast"
    (np_broadcast x_forecast x_mean_forecast) ;;
  eff_inv_obs_var <- assign "eff_inv_obs_var"
    (np_broadcast localisation_weights obs_noise_std) ;;
  '(eigvec_p, sing_val, _) <- assign "eigvec_p, sing_val, _"
    (q <~ np_broadcast dx_forecast eff_inv_obs_var ;; la_svd q) ;;
  eigval_p_inv <- assign "eigval_p_inv" (Returned [:: n_p]) ;;
  eigval_p_inv <- assign "eigval_p_inv[:dx_forecast.shape[1]]"
    (k <~ np_shape dx_forecast 1 ;; np_iadd_slice eigval_p_inv k sing_val) ;;
  eigval_p <- assign "eigval_p" (Returned eigval_p_inv) ;;
  dw_matrix <- assign "dw_matrix"
    (q <~ np_broadcast eigvec_p eigval_p ;; np_dot q (np_T eigvec_p)) ;;
  d_vector <- assign "d_vector"
    (q <~ np_broadcast dx_forecast eff_inv_obs_var ;;
     e <~ np_broadcast x_observed x_mean_forecast ;;
     np_dot q e) ;;
  w_mean <- assign "w_mean"
    (g <~ np_dot (np_T eigvec_p) d_vector ;;
     h <~ np_broadcast eigval_p g ;;
     np_dot eigvec_p h) ;;
  w_matrix <- assign "w_matrix" (np_broadcast (1 :: w_mean) dw_matrix) ;;
  assign "return"
    (g <~ np_dot w_matrix dz_forecast ;; np_broadcast z_mean_forecast g).

(** ** The assignments of each update, in the order of the source *)

Definition enkf_assignments : seq string :=
  [:: "x_forecast"; "dz_forecast"; "dx_forecast"; "dx_error"; "z_analysis";
      "return"].

Definition esrf_assignments : seq string :=
  [:: "n_particles"; "z_mean_forecast"; "dz_forecast"; "x_forecast";
      "x_mean_forecast"; "dx_forecast"; "c_matrix"; "eigval_c, eigvec_c";
      "k_gain"; "z_mean_analysis"; "m_matrix"; "eigval_m, eigvec_m";
      "sqrt_matrix"; "dz_analysis"; "return"].

Definition wesrf_assignments : seq string :=
  [:: "n_particles"; "z_mean_forecast"; "dz_forecast"; "x_forecast";
      "x_mean_forecast"; "dx_forecast"; "dx_error"; "a_matrix"; "b_vector";
      "c_matrix"; "d_matrix"; "e_matrix"; "z_mean_analysis"; "m_matrix";
      "eigval_m, eigvec_m"; "sqrt_matrix"; "dz_analysis"; "return"].

Definition letkf_assignments : seq string :=
  [:: "n_p"; "z_mean_forecast"; "dz_forecast"; "x_mean_forecast";
      "dx_forecast"; "eff_inv_obs_var"; "eigvec_p, sing_val, _";
      "eigval_p_inv"; "eigval_p_inv[:dx_forecast.shape[1]]"; "eigval_p";
      "dw_matrix"; "d_vector"; "w_mean"; "w_matrix"; "return"].

(** The assignments of [l] up to and including [name]: the trace of an
    update that raised in the assignment after [name]. *)
Fixpoint through (name : string) (l : seq string) : seq string :=
  if l is x :: l' then
    x :: (if String.eqb x name then [::] else through name l')
  else [::].

End Shapes.

(** * Array operations as matrix algebra *)

Section ArrayLemmas.

Variables (n d : nat).

Lemma np_mul_rowE (A : 'M[R]_(n, d)) (v : 'rV[R]_d) :
  np_mul_row A v = A *m diag_mx v.
Proof. by rewrite mul_mx_diag. Qed.

Lemma np_div_rowE (A : 'M[R]_(n, d)) (v : 'rV[R]_d) :
  np_div_row A v = A *m diag_mx (map_mx (fun a => a^-1) v).
Proof. by rewrite -np_mul_rowE; apply/matrixP => i j; rewrite !mxE. Qed.

Lemma np_div_scalarE (A : 'M[R]_(n, d)) (c : R) :
  np_div_scalar A c = c^-1 *: A.
Proof. by apply/matrixP => i j; rewrite !mxE mulrC. Qed.

End ArrayLemmas.

(** * Linear algebra used by the updates *)

Section LinearAlgebra.

Variable n : nat.

Lemma row_sqnormE (u : 'rV[R]_n) : (u *m u^T) 0 0 = \sum_k u 0 k ^+ 2.
Proof. by rewrite mxE; apply: eq_bigr => k _; rewrite mxE expr2. Qed.

Lemma row_sqnorm_ge0 (u : 'rV[R]_n) : 0 <= (u *m u^T) 0 0.
Proof. by rewrite row_sqnormE sumr_ge0 // => k _; rewrite sqr_ge0. Qed.

Lemma row_sqnorm_gt0 (u : 'rV[R]_n) : u != 0 -> 0 < (u *m u^T) 0 0.
Proof.
move=> u0; rewrite lt_neqAle row_sqnorm_ge0 andbT eq_sym.
apply: contraNneq u0; rewrite row_sqnormE => /eqP.
rewrite psumr_eq0 => [k _|/allP z]; first by rewrite sqr_ge0.
apply/eqP/rowP => k; rewrite mxE; apply/eqP; rewrite -sqrf_eq0.
by have /= := z k (mem_index_enum k).
Qed.

Lemma posdef_unit (a : 'M[R]_n) : posdef a -> a \in unitmx.
Proof.
case=> _ pd; rewrite -row_free_unit -kermx_eq0.
apply/eqP/row_matrixP => i; rewrite row0; apply/eqP.
apply: contraT => r0; have := pd _ r0.
have -> : row i (kermx a) *m a = 0.
  by rewrite -row_mul mulmx_ker row0.
by rewrite mul0mx mxE ltxx.
Qed.

Lemma eigh_orthoC (a : 'M[R]_n) wv : eigh_spec a wv -> wv.2 *m wv.2^T = 1%:M.
Proof. by case=> vtv _; exact: mulmx1C. Qed.

Lemma eigh_eigval (a : 'M[R]_n) wv j :
  eigh_spec a wv ->
  wv.1 0 j = (row j wv.2^T *m a *m (row j wv.2^T)^T) 0 0.
Proof.
case=> vtv ->; set r := row j _.
have rV : r *m wv.2 = delta_mx 0 j by rewrite /r -row_mul vtv row1.
rewrite 2!mulmxA rV -mulmxA -[wv.2^T *m _]trmxK trmx_mul !trmxK rV.
by rewrite trmx_delta -rowE -colE !mxE eqxx mulr1n.
Qed.

Lemma eigh_posdef_eigval (a : 'M[R]_n) wv j :
  eigh_spec a wv -> posdef a -> 0 < wv.1 0 j.
Proof.
move=> spec [_ pd]; rewrite (eigh_eigval j spec); apply: pd.
apply/eqP => r0; case: spec => vtv _.
have := congr1 (fun r => (r *m wv.2) 0 j) r0.
by rewrite -row_mul vtv row1 mul0mx !mxE !eqxx => /eqP; rewrite oner_eq0.
Qed.

Lemma eigh_inverse (a : 'M[R]_n) wv :
  eigh_spec a wv -> (forall j, wv.1 0 j != 0) ->
  np_div_row wv.2 wv.1 *m wv.2^T *m a = 1%:M.
Proof.
move=> spec w0; have vvt := eigh_orthoC spec; case: spec => vtv ->.
rewrite np_div_rowE !mulmxA -[_ *m wv.2^T *m wv.2]mulmxA vtv mulmx1.
rewrite -[_ *m diag_mx _ *m diag_mx _]mulmxA mulmx_diag.
have -> : diag_mx (\row_j ((map_mx (fun x => x^-1) wv.1) 0 j * wv.1 0 j)) = 1%:M.
  rewrite -diag_const_mx; congr diag_mx; apply/rowP => j.
  by rewrite !mxE mulVf.
by rewrite mulmx1.
Qed.

End LinearAlgebra.

Section PositiveDefinite.

Variable n : nat.

Lemma quadD (a b : 'M[R]_n) (v : 'rV[R]_n) :
  (v *m (a + b) *m v^T) 0 0 = (v *m a *m v^T) 0 0 + (v *m b *m v^T) 0 0.
Proof. by rewrite mulmxDr mulmxDl mxE. Qed.

Lemma quadZ (c : R) (a : 'M[R]_n) (v : 'rV[R]_n) :
  (v *m (c *: a) *m v^T) 0 0 = c * (v *m a *m v^T) 0 0.
Proof. by rewrite -scalemxAr -scalemxAl mxE. Qed.

Lemma posdef_quad_ge0 (a : 'M[R]_n) (v : 'rV[R]_n) :
  posdef a -> 0 <= (v *m a *m v^T) 0 0.
Proof.
case=> _ pd; have [->|v0] := eqVneq v 0; first by rewrite !mul0mx mxE.
exact/ltW/pd.
Qed.

End PositiveDefinite.

Section PositiveDefiniteSums.

Variables (n m : nat).

Lemma posdef_gram_add (X : 'M[R]_(m, n)) (r : 'M[R]_n) (c : R) :
  0 < c -> posdef r -> posdef (X^T *m X + c *: r).
Proof.
move=> c0 pr; have [rT pd] := pr; split=> [|v v0].
  by rewrite linearD /= linearZ /= trmx_mul trmxK rT.
rewrite quadD quadZ.
rewrite ltr_wpDl ?mulr_gt0 ?pd //.
by rewrite mulmxA -mulmxA -[X]trmxK -trmx_mul trmxK row_sqnorm_ge0.
Qed.

Lemma posdef_scalar_add (X : 'M[R]_(n, m)) (p : 'M[R]_m) (c : R) :
  0 < c -> posdef p -> posdef (c *: 1%:M + X *m p *m X^T).
Proof.
move=> c0 pp; have [pT _] := pp; split=> [|v v0].
  by rewrite linearD /= linearZ /= trmx1 !trmx_mul trmxK pT mulmxA.
rewrite quadD quadZ mulmx1.
rewrite ltr_pwDl ?mulr_gt0 ?row_sqnorm_gt0 //.
by rewrite !mulmxA -[_ *m X^T *m _]mulmxA -trmx_mul; exact: posdef_quad_ge0.
Qed.

End PositiveDefiniteSums.

Section PositiveDefiniteInverse.

Variable n : nat.

Lemma posdef_inverse (p r : 'M[R]_n) : p *m r = 1%:M -> posdef r -> posdef p.
Proof.
move=> pr [rT pd]; have rp := mulmx1C pr.
have pT : p^T = p.
  rewrite -[LHS]mulmx1 -rp mulmxA -{1}rT -trmx_mul rp trmx1 mul1mx //.
split=> // v v0.
have -> : v *m p *m v^T = (v *m p) *m r *m (v *m p)^T.
  by rewrite trmx_mul pT !mulmxA -[_ *m p *m r]mulmxA pr mulmx1.
apply: pd; apply: contraNneq v0 => vp0.
by rewrite -[v]mulmx1 -pr mulmxA vp0 mul0mx.
Qed.

End PositiveDefiniteInverse.

(** * The square-root and Woodbury updates agree on the mean *)

Section Agreement.

Variable la : linalg.
Variables (N Dz Dx : nat).

Variable wb : WoodburyEnsembleSquareRootFilter N Dz Dx.
Variable sq : EnsembleSquareRootFilter N Dz Dx.
Variables (z_forecast : 'M[R]_(N, Dz)) (x_observed : 'rV[R]_Dx) (t : nat).

Lemma wesrf_a_matrixE :
  wesrf_a_matrix wb z_forecast t =
  preci_matrix (obser_noise_preci wb) *m (wesrf_dx_forecast wb z_forecast t)^T.
Proof.
rewrite /wesrf_a_matrix; case: (obser_noise_preci wb) => p //=.
  by rewrite linearZ /= mul_scalar_mx.
by rewrite np_mul_rowE trmx_mul tr_diag_mx.
Qed.

Hypothesis N_ge2 : (2 <= N)%N.
Hypothesis same_obs :
  esrf_observation_func sq z_forecast t = wesrf_observation_func wb z_forecast t.
Hypothesis covar_posdef : posdef (obser_noise_covar sq).
Hypothesis preci_inverse :
  preci_matrix (obser_noise_preci wb) *m obser_noise_covar sq = 1%:M.

Lemma n_particles_gt1 : 0 < N%:R - 1 :> R.
Proof. by rewrite subr_gt0 ltr1n. Qed.

Lemma wesrf_d_matrix_posdef : posdef (wesrf_d_matrix wb z_forecast t).
Proof.
rewrite /wesrf_d_matrix /wesrf_c_matrix wesrf_a_matrixE mulmxA.
apply: posdef_scalar_add; first exact: n_particles_gt1.
exact: posdef_inverse preci_inverse covar_posdef.
Qed.

Lemma esrf_c_matrix_posdef : posdef (esrf_c_matrix sq z_forecast t).
Proof. exact: posdef_gram_add n_particles_gt1 covar_posdef. Qed.

Hypothesis eigh_c :
  eigh_spec (esrf_c_matrix sq z_forecast t)
            (la_eigh la (esrf_c_matrix sq z_forecast t)).
Hypothesis solve_d :
  solve_spec (wesrf_d_matrix wb z_forecast t) (wesrf_c_matrix wb z_forecast t)
             (wesrf_e_matrix la wb z_forecast t).

Lemma same_dx_forecast :
  esrf_dx_forecast sq z_forecast t = wesrf_dx_forecast wb z_forecast t.
Proof.
by rewrite /esrf_dx_forecast /esrf_x_mean_forecast /esrf_x_forecast same_obs.
Qed.

Lemma woodbury_push_through :
  wesrf_a_matrix wb z_forecast t -
    wesrf_a_matrix wb z_forecast t *m wesrf_e_matrix la wb z_forecast t =
  (N%:R - 1) *:
    (np_div_row (esrf_eigvec_c la sq z_forecast t)
                (esrf_eigval_c la sq z_forecast t) *m
     (esrf_eigvec_c la sq z_forecast t)^T *m
     (wesrf_dx_forecast wb z_forecast t)^T).
Proof.
have de := solve_d (posdef_unit wesrf_d_matrix_posdef).
have CiC := eigh_inverse eigh_c
  (fun j => lt0r_neq0 (eigh_posdef_eigval j eigh_c esrf_c_matrix_posdef)).
have RP := mulmx1C preci_inverse.
set a := wesrf_a_matrix _ _ _; set e := wesrf_e_matrix _ _ _ _.
set X := wesrf_dx_forecast _ _ _.
have Ca : esrf_c_matrix sq z_forecast t *m a =
          X^T *m wesrf_d_matrix wb z_forecast t.
  rewrite /esrf_c_matrix /wesrf_d_matrix /wesrf_c_matrix same_dx_forecast.
  rewrite -/X -/a /esrf_n_particles /wesrf_n_particles mulmxDl mulmxDr.
  rewrite addrC -mulmxA; congr (_ + _).
  rewrite -scalemxAl -scalemxAr mulmx1 {}/a wesrf_a_matrixE mulmxA RP.
  by rewrite mul1mx.
rewrite -[LHS]mul1mx -CiC -/(esrf_eigvec_c _ _ _ _) -/(esrf_eigval_c _ _ _ _).
rewrite scalemxAr -[LHS]mulmxA; congr (_ *m _).
rewrite mulmxBr mulmxA Ca -mulmxA de -mulmxBr /wesrf_d_matrix addrK.
by rewrite -scalemxAr mulmx1.
Qed.

(** C1: for a forecast ensemble of at least two particles, the same
    deterministic observation function, a symmetric positive-definite
    observation-noise covariance J J^T and a precision that is its inverse,
    the square-root update and the Woodbury update return the same
    analysis mean. *)
Theorem esrf_wesrf_same_mean :
  (esrf_analysis_update la sq z_forecast x_observed t).1.1.2 =
  (wesrf_analysis_update la wb z_forecast x_observed t).1.1.2.
Proof.
rewrite /= /esrf_z_mean_analysis /wesrf_z_mean_analysis.
rewrite /esrf_z_mean_forecast /wesrf_z_mean_forecast; congr (_ + _).
rewrite /wesrf_b_vector -mulmxA -mulmxBr woodbury_push_through.
rewrite np_div_scalarE -!scalemxAr -scalemxAl scalerA.
rewrite (mulVf (lt0r_neq0 n_particles_gt1)) scale1r.
rewrite /esrf_k_gain /wesrf_dx_error /esrf_x_mean_forecast /esrf_x_forecast.
rewrite /wesrf_x_mean_forecast /wesrf_x_forecast same_obs.
rewrite /esrf_dz_forecast /wesrf_dz_forecast /esrf_z_mean_forecast.
rewrite /wesrf_z_mean_forecast same_dx_forecast.
by rewrite !mulmxA.
Qed.

End Agreement.

(** * Real square roots *)

Lemma np_sqrt0 : np_sqrt 0 = 0.
Proof. exact: sqrt_0. Qed.

Lemma np_sqrt_sqr (a : R) : 0 <= a -> np_sqrt a * np_sqrt a = a.
Proof. by move=> /RlebP a0; exact: sqrt_sqrt. Qed.

Lemma np_sqrtM (a b : R) : 0 <= a -> 0 <= b ->
  np_sqrt (a * b) = np_sqrt a * np_sqrt b.
Proof. by move=> /RlebP a0 /RlebP b0; exact: sqrt_mult. Qed.

Lemma np_sqrt_inj (a b : R) : 0 <= a -> 0 <= b -> np_sqrt a = np_sqrt b -> a = b.
Proof. by move=> /RlebP a0 /RlebP b0; exact: sqrt_inj. Qed.

(** * The dense and diagonal precisions give the same update *)

Section PrecisionRepresentations.

Variable la : linalg.
Variables (N Dz Dx : nat).

Lemma wesrf_analysis_update_ext (wb1 wb2 : WoodburyEnsembleSquareRootFilter N Dz Dx)
    (z_forecast : 'M[R]_(N, Dz)) (x_observed : 'rV[R]_Dx) (t : nat) :
  wesrf_observation_func wb1 z_forecast t = wesrf_observation_func wb2 z_forecast t ->
  preci_matrix (obser_noise_preci wb1) = preci_matrix (obser_noise_preci wb2) ->
  wesrf_warn wb1 = wesrf_warn wb2 ->
  wesrf_analysis_update la wb1 z_forecast x_observed t =
  wesrf_analysis_update la wb2 z_forecast x_observed t.
Proof.
move=> eo ep ew.
have ex : wesrf_dx_forecast wb1 z_forecast t = wesrf_dx_forecast wb2 z_forecast t.
  by rewrite /wesrf_dx_forecast /wesrf_x_mean_forecast /wesrf_x_forecast eo.
have ea : wesrf_a_matrix wb1 z_forecast t = wesrf_a_matrix wb2 z_forecast t.
  by rewrite !wesrf_a_matrixE ep ex.
have ec : wesrf_c_matrix wb1 z_forecast t = wesrf_c_matrix wb2 z_forecast t.
  by rewrite /wesrf_c_matrix ea ex.
have ee : wesrf_e_matrix la wb1 z_forecast t = wesrf_e_matrix la wb2 z_forecast t.
  by rewrite /wesrf_e_matrix /wesrf_d_matrix ec.
have eb : wesrf_b_vector wb1 z_forecast x_observed t =
          wesrf_b_vector wb2 z_forecast x_observed t.
  rewrite /wesrf_b_vector ea /wesrf_dx_error /wesrf_x_mean_forecast.
  by rewrite /wesrf_x_forecast eo.
have em : wesrf_m_matrix la wb1 z_forecast t = wesrf_m_matrix la wb2 z_forecast t.
  by rewrite /wesrf_m_matrix ec ee.
have ez : wesrf_dz_analysis la wb1 z_forecast t =
          wesrf_dz_analysis la wb2 z_forecast t.
  rewrite /wesrf_dz_analysis /wesrf_sqrt_matrix /wesrf_sqrt_args.
  by rewrite /wesrf_eigvec_m /wesrf_eigval_m em.
rewrite /wesrf_analysis_update /wesrf_z_mean_analysis ez eb ee ew.
by rewrite /wesrf_eigval_m em.
Qed.

(** C6: a diagonal precision given as the vector of its diagonal entries
    and given as the dense diagonal matrix produce the same analysis
    ensemble, mean and spread (and the same warnings). *)
Theorem wesrf_diag_dense_same
    (obs : 'M[R]_(N, Dz) -> nat -> 'M[R]_(N, Dx)) (p : 'rV[R]_Dx) (warn : bool)
    (z_forecast : 'M[R]_(N, Dz)) (x_observed : 'rV[R]_Dx) (t : nat) :
  wesrf_a_matrix
    (Build_WoodburyEnsembleSquareRootFilter obs (PreciDiag p) warn)
    z_forecast t =
  wesrf_a_matrix
    (Build_WoodburyEnsembleSquareRootFilter obs (PreciDense (diag_mx p)) warn)
    z_forecast t /\
  wesrf_analysis_update la
    (Build_WoodburyEnsembleSquareRootFilter obs (PreciDiag p) warn)
    z_forecast x_observed t =
  wesrf_analysis_update la
    (Build_WoodburyEnsembleSquareRootFilter obs (PreciDense (diag_mx p)) warn)
    z_forecast x_observed t.
Proof.
split; last exact: wesrf_analysis_update_ext.
by rewrite !wesrf_a_matrixE.
Qed.

End PrecisionRepresentations.

(** * The perturbed-observation update *)

Section PerturbedObservationUpdate.

Variable la : linalg.
Variables (N Dz Dx : nat) (rng : Type).

(** C2: the perturbed-observation update draws X_f from the sampler,
    centres Z_f and X_f, forms the innovations x - X_f and returns
    Z_a = Z_f + (dX_err pinv(dX)) dZ with the column means and column
    standard deviations of Z_a. *)
Theorem enkf_analysis_update_correct
    (self : EnsembleKalmanFilter N Dz Dx rng)
    (z_forecast : 'M[R]_(N, Dz)) (x_observed : 'rV[R]_Dx) (t : nat) (g : rng) :
  let x_f := (observation_sampler self z_forecast t g).1 in
  let dz := \matrix_(i, j) (z_forecast i j - (\sum_k z_forecast k j) / N%:R) in
  let dx := \matrix_(i, j) (x_f i j - (\sum_k x_f k j) / N%:R) in
  let dx_err := \matrix_(i, j) (x_observed 0 j - x_f i j) in
  let z_a := z_forecast + dx_err *m la_pinv la dx *m dz in
  let mean_a := \row_j ((\sum_i z_a i j) / N%:R) in
  let std_a :=
    \row_j np_sqrt ((\sum_i (z_a i j - mean_a 0 j) ^+ 2) / N%:R) in
  enkf_analysis_update la self z_forecast x_observed t g =
  ((z_a, mean_a, std_a), (observation_sampler self z_forecast t g).2).
Proof.
rewrite /enkf_analysis_update; case: observation_sampler => x_f g' /=.
have -> : np_sub_row z_forecast (np_mean0 z_forecast) =
          \matrix_(i, j) (z_forecast i j - (\sum_k z_forecast k j) / N%:R).
  by apply/matrixP => i j; rewrite !mxE.
have -> : np_sub_row x_f (np_mean0 x_f) =
          \matrix_(i, j) (x_f i j - (\sum_k x_f k j) / N%:R).
  by apply/matrixP => i j; rewrite !mxE.
congr (_, _, _, _); apply/rowP => j; rewrite !mxE //.
congr (np_sqrt (_ / _)); apply: eq_bigr => i _.
by rewrite !mxE.
Qed.

End PerturbedObservationUpdate.

(** * Maximum and clipping of a vector *)

Lemma foldl_max_init (a : R) (s : seq R) : a <= foldl Num.max a s.
Proof.
elim: s a => [|b s ih] a //=.
by apply: le_trans (ih _); rewrite le_max lexx.
Qed.

Lemma foldl_max_ge (a : R) (s : seq R) x :
  x \in a :: s -> x <= foldl Num.max a s.
Proof.
elim: s a => [|b s ih] a; first by rewrite inE => /eqP ->.
rewrite inE => /orP[/eqP ->|xs]; first exact: foldl_max_init.
move: xs; rewrite inE /= => /orP[/eqP ->|xs].
  by apply: le_trans (foldl_max_init _ _); rewrite le_max lexx orbT.
by apply: ih; rewrite inE xs orbT.
Qed.

Lemma foldl_max_in (a : R) (s : seq R) : foldl Num.max a s \in a :: s.
Proof.
elim: s a => [|b s ih] a /=; first exact: mem_head.
have := ih (Num.max a b); rewrite !inE.
by case: (leP a b) => _ /orP[->|->] //; rewrite !orbT.
Qed.

Lemma np_max_ge n (w : 'rV[R]_n) j : w 0 j <= np_max w.
Proof.
rewrite /np_max; have : w 0 j \in [seq w 0 k | k <- enum 'I_n].
  by apply: map_f; rewrite mem_enum.
by case: [seq _ | _ <- _] => // a s; exact: foldl_max_ge.
Qed.

Lemma np_max_attained n (w : 'rV[R]_n) (j : 'I_n) : exists k, np_max w = w 0 k.
Proof.
rewrite /np_max; have : w 0 j \in [seq w 0 k | k <- enum 'I_n].
  by apply: map_f; rewrite mem_enum.
case e: [seq _ | _ <- _] => [|a s] // _.
have := foldl_max_in a s; rewrite -e => /mapP[k _ ->].
by exists k.
Qed.

Lemma np_clip_above_le n (w : 'rV[R]_n) hi j : np_clip_above w hi 0 j <= hi.
Proof. by rewrite mxE ge_min lexx orbT. Qed.

(** * The eigenvalue warning *)

Section EigenvalueWarning.

Variable la : linalg.
Variables (N Dz Dx : nat).
Variable sq : EnsembleSquareRootFilter N Dz Dx.
Variable wb : WoodburyEnsembleSquareRootFilter N Dz Dx.
Variables (z_forecast : 'M[R]_(N, Dz)) (x_observed : 'rV[R]_Dx) (t : nat).

Lemma eigenvalue_warningsE n (eigval_m : 'rV[R]_n) :
  eigenvalue_warnings true eigval_m =
  if [exists j, 1 < eigval_m 0 j]
  then [:: EigenvaluesOutsideUnitCircle (np_max eigval_m)] else [::].
Proof. by []. Qed.

(** C3, as the code has it: with [warn] set, an update warns exactly when
    an eigenvalue of m returned by [eigh] is greater than 1 (compared with
    1 itself, with no tolerance margin); it then raises one warning, which
    carries the largest eigenvalue; the returned analysis is the one the
    update returns with [warn] unset, and every clipped eigenvalue is at
    most 1. *)
Theorem eigenvalue_warning_exact :
  esrf_warn sq -> wesrf_warn wb ->
  let w_sq := esrf_eigval_m la sq z_forecast t in
  let w_wb := wesrf_eigval_m la wb z_forecast t in
  let r_sq := esrf_analysis_update la sq z_forecast x_observed t in
  let r_wb := wesrf_analysis_update la wb z_forecast x_observed t in
  [/\ r_sq.2 = (if [exists j, 1 < w_sq 0 j]
                then [:: EigenvaluesOutsideUnitCircle (np_max w_sq)] else [::]),
      r_wb.2 = (if [exists j, 1 < w_wb 0 j]
                then [:: EigenvaluesOutsideUnitCircle (np_max w_wb)] else [::]),
      forall w : 'rV[R]_N, (exists j, 1 < w 0 j) ->
        (forall j, w 0 j <= np_max w) /\ (exists j, w 0 j = np_max w),
      r_sq.1 =
        (esrf_analysis_update la
           (Build_EnsembleSquareRootFilter (esrf_observation_func sq)
              (obser_noise_matrix sq) false)
           z_forecast x_observed t).1 /\
      r_wb.1 =
        (wesrf_analysis_update la
           (Build_WoodburyEnsembleSquareRootFilter (wesrf_observation_func wb)
              (obser_noise_preci wb) false)
           z_forecast x_observed t).1 &
      forall j, np_clip_above w_sq 1 0 j <= 1 /\ np_clip_above w_wb 1 0 j <= 1].
Proof.
move=> ws ww /=; split.
- by rewrite /eigenvalue_warnings ws.
- by rewrite /eigenvalue_warnings ww.
- move=> w [j j1]; split; first by move=> k; exact: np_max_ge.
  by have [k ->] := np_max_attained w j; exists k.
- by [].
- by move=> j; rewrite !np_clip_above_le.
Qed.

End EigenvalueWarning.

(** * Means and spreads of columns *)

Section ColumnStatistics.

Variables (n d : nat).

Lemma np_mean0_square_ge0 (A : 'M[R]_(n, d)) j : 0 <= np_mean0 (np_square A) 0 j.
Proof.
rewrite mxE divr_ge0 ?ler0n // sumr_ge0 // => i _.
by rewrite mxE sqr_ge0.
Qed.

(** Centring: a column shifted by a constant keeps its deviations. *)
Lemma np_mean0_row_add (v : 'rV[R]_d) (A : 'M[R]_(n, d)) j :
  (0 < n)%N ->
  np_mean0 (np_row_add v A) 0 j = v 0 j + np_mean0 A 0 j.
Proof.
move=> n0; rewrite !mxE.
under eq_bigr do rewrite mxE.
rewrite big_split /= sumr_const card_ord mulrDl -mulr_natr mulfK //.
by rewrite pnatr_eq0 -lt0n.
Qed.

(** The mean of squared deviations is the mean square less the squared mean. *)
Lemma mean_sq_dev (A : 'M[R]_(n, d)) j :
  (0 < n)%N ->
  np_mean0 (np_square (np_sub_row A (np_mean0 A))) 0 j =
  np_mean0 (np_square A) 0 j - np_mean0 A 0 j ^+ 2.
Proof.
move=> n0; have nn0 : n%:R != 0 :> R by rewrite pnatr_eq0 -lt0n.
set mu := np_mean0 A 0 j.
have smu : \sum_i A i j = mu * n%:R by rewrite /mu mxE divfK.
rewrite [LHS]mxE [X in X - _]mxE.
under eq_bigr do rewrite 2!mxE -/mu sqrrB.
under [in RHS]eq_bigr do rewrite mxE.
rewrite big_split /= sumrB sumr_const card_ord -mulr_natr.
rewrite sumrMnl -mulr_suml smu mulr2n.
by field.
Qed.

End ColumnStatistics.

Lemma np_mean0_empty d (A : 'M[R]_(0, d)) j : np_mean0 A 0 j = 0.
Proof. by rewrite mxE big_ord0 mul0r. Qed.

Lemma np_sub_row_add n d (v : 'rV[R]_d) (A : 'M[R]_(n, d)) :
  (0 < n)%N ->
  np_sub_row (np_row_add v A) (np_mean0 (np_row_add v A)) =
  np_sub_row A (np_mean0 A).
Proof.
move=> n0; apply/matrixP => i j.
rewrite [LHS]mxE np_mean0_row_add // [in LHS]mxE [RHS]mxE; ring.
Qed.

(** * The spread of the square-root update *)

(** C5: the spread the square-root update returns is the root mean square
    of the analysis deviations dZ_a, column by column, and it equals the
    standard deviation of the same column of the returned ensemble exactly
    when that column of dZ_a sums to zero. *)
Theorem esrf_spread_is_rms (la : linalg) (N Dz Dx : nat)
    (sq : EnsembleSquareRootFilter N Dz Dx)
    (z_forecast : 'M[R]_(N, Dz)) (x_observed : 'rV[R]_Dx) (t : nat) (j : 'I_Dz) :
  let dz_a := esrf_dz_analysis la sq z_forecast t in
  let r := (esrf_analysis_update la sq z_forecast x_observed t).1 in
  r.2 0 j = np_sqrt ((\sum_i dz_a i j ^+ 2) / N%:R) /\
  (np_std0 r.1.1 0 j = r.2 0 j <-> \sum_i dz_a i j = 0).
Proof.
move=> dz_a /=; split.
  by rewrite !mxE; congr (np_sqrt (_ / _)); apply: eq_bigr => i _; rewrite mxE.
rewrite /np_std0 [X in X = _]mxE [X in _ = X]mxE -/dz_a.
move: (esrf_z_mean_analysis _ _ _ _ _) dz_a => zm dz_a.
case: N zm dz_a {sq z_forecast} => [|n] zm dz_a.
  by rewrite !np_mean0_empty big_ord0.
rewrite np_sub_row_add // mean_sq_dev //.
have muE : np_mean0 dz_a 0 j = (\sum_i dz_a i j) / n.+1%:R by rewrite mxE.
have n0 : n.+1%:R != 0 :> R by rewrite pnatr_eq0.
split=> [e|s0]; last by rewrite muE s0 mul0r expr0n subr0.
have : np_mean0 dz_a 0 j ^+ 2 = 0.
  have := np_sqrt_inj _ (np_mean0_square_ge0 dz_a j) e.
  rewrite -mean_sq_dev // => /(_ (np_mean0_square_ge0 _ _)).
  by rewrite mean_sq_dev // => /eqP; rewrite subr_eq addrC -subr_eq subrr eq_sym => /eqP.
by move=> /eqP; rewrite sqrf_eq0 muE mulf_eq0 invr_eq0 (negbTE n0) orbF => /eqP.
Qed.

(** * Square roots are taken of non-negative numbers *)

(** C9: in both deterministic updates every number whose square root is
    taken is non-negative, whatever real eigenvalues [eigh] returned: the
    clipped eigenvalue is at most 1, so 1 minus it is non-negative, and the
    spread is the square root of a mean of squares; each square root is
    therefore a real number whose square is its argument. *)
Theorem sqrt_arguments_nonneg (la : linalg) (N Dz Dx : nat)
    (sq : EnsembleSquareRootFilter N Dz Dx)
    (wb : WoodburyEnsembleSquareRootFilter N Dz Dx)
    (z_forecast : 'M[R]_(N, Dz)) (t : nat) (i : 'I_N) (j : 'I_Dz) :
  let a_sq := esrf_sqrt_args la sq z_forecast t 0 i in
  let a_wb := wesrf_sqrt_args la wb z_forecast t 0 i in
  let s_sq := np_mean0 (np_square (esrf_dz_analysis la sq z_forecast t)) 0 j in
  let s_wb := np_mean0 (np_square (wesrf_dz_analysis la wb z_forecast t)) 0 j in
  [/\ 0 <= 1 - np_clip_above (esrf_eigval_m la sq z_forecast t) 1 0 i /\
      0 <= 1 - np_clip_above (wesrf_eigval_m la wb z_forecast t) 1 0 i,
      0 <= a_sq /\ np_sqrt a_sq ^+ 2 = a_sq,
      0 <= a_wb /\ np_sqrt a_wb ^+ 2 = a_wb,
      0 <= s_sq /\ np_sqrt s_sq ^+ 2 = s_sq &
      0 <= s_wb /\ np_sqrt s_wb ^+ 2 = s_wb].
Proof.
have clip1 n (w : 'rV[R]_n) k : 0 <= 1 - np_clip_above w 1 0 k.
  by rewrite subr_ge0 mxE ge_min lexx orbT.
have sq_ok (a : R) : 0 <= a -> 0 <= a /\ np_sqrt a ^+ 2 = a.
  by move=> a0; split=> //; rewrite expr2 np_sqrt_sqr.
move=> /=; split; first by split; exact: clip1.
- by apply: sq_ok; rewrite mxE normr_ge0.
- by apply: sq_ok; rewrite mxE; exact: clip1.
- by apply: sq_ok; exact: np_mean0_square_ge0.
- by apply: sq_ok; exact: np_mean0_square_ge0.
Qed.

(** * Singular values of a zero matrix *)

Lemma svd_diag_entry m n (s : 'rV[R]_(minn m n)) k :
  svd_diag s (widen_ord (geq_minl m n) k) (widen_ord (geq_minr m n) k) = s 0 k.
Proof. by rewrite mxE /= eqxx valK. Qed.

Lemma svd_zero m n (a : 'M[R]_(m, n)) usv :
  a = 0 -> svd_spec a usv -> usv.1.2 = 0 /\ usv.1.1 *m usv.1.1^T = 1%:M.
Proof.
move=> -> [utu vvt _ e]; split; last exact: mulmx1C.
have s0 : svd_diag usv.1.2 = 0.
  rewrite -[LHS]mul1mx -[LHS]mulmx1 -utu -vvt.
  have -> : usv.1.1^T *m usv.1.1 *m svd_diag usv.1.2 *m (usv.2 *m usv.2^T) =
            usv.1.1^T *m (usv.1.1 *m svd_diag usv.1.2 *m usv.2) *m usv.2^T.
    by rewrite !mulmxA.
  by rewrite -e mulmx0 mul0mx.
by apply/rowP => k; rewrite -svd_diag_entry s0 !mxE.
Qed.

(** * Centred columns *)

Lemma np_mean0_centred n d (A : 'M[R]_(n, d)) j :
  np_mean0 (np_sub_row A (np_mean0 A)) 0 j = 0.
Proof.
case: n A => [|n] A; first exact: np_mean0_empty.
rewrite [LHS]mxE; under eq_bigr do rewrite mxE.
rewrite sumrB sumr_const card_ord [in X in _ - X]mxE -mulr_natr divfK ?subrr ?mul0r //.
by rewrite pnatr_eq0.
Qed.

Lemma np_mean0Z n d (c : R) (A : 'M[R]_(n, d)) j :
  np_mean0 (c *: A) 0 j = c * np_mean0 A 0 j.
Proof.
rewrite !mxE; under eq_bigr do rewrite mxE.
by rewrite -mulr_sumr mulrA.
Qed.

Lemma np_squareZ n d (c : R) (A : 'M[R]_(n, d)) :
  np_square (c *: A) = c ^+ 2 *: np_square A.
Proof. by apply/matrixP => i j; rewrite !mxE exprMn. Qed.

Lemma np_sub_row0 n d (A : 'M[R]_(n, d)) (v : 'rV[R]_d) :
  v = 0 -> np_sub_row A v = A.
Proof. by move=> ->; apply/matrixP => i j; rewrite !mxE subr0. Qed.

(** * The localised update without observations *)

Section ZeroWeights.

Variable la : linalg.
Variables (N Dz Dx : nat).
Variable self : LocalEnsembleTransformKalmanFilter.
Variables (z_forecast : 'M[R]_(N, Dz)) (x_forecast : 'M[R]_(N, Dx)).
Variables (x_observed obs_noise_std localisation_weights : 'rV[R]_Dx).

Hypothesis N_ge2 : (2 <= N)%N.
Hypothesis std_gt0 : forall j, 0 < obs_noise_std 0 j.
Hypothesis inflation_ge1 : 1 <= inflation_factor self.
Hypothesis weights0 : forall j, localisation_weights 0 j = 0.

Local Notation eff :=
  (letkf_eff_inv_obs_var obs_noise_std localisation_weights).
Local Notation scaled :=
  (np_mul_row (letkf_dx_forecast x_forecast) (map_mx np_sqrt eff)).

Hypothesis svd_ok :
  svd_spec scaled
    (letkf_svd la x_forecast obs_noise_std localisation_weights).

Let infl := inflation_factor self.
Let kappa : R := 1 * (N%:R - 1) / infl.

Lemma letkf_infl_gt0 : 0 < infl.
Proof. exact: lt_le_trans ltr01 inflation_ge1. Qed.

Lemma letkf_kappa_gt0 : 0 < kappa.
Proof.
by rewrite /kappa mul1r divr_gt0 ?letkf_infl_gt0 // subr_gt0 ltr1n.
Qed.

Lemma letkf_eff0 : eff = 0.
Proof. by apply/rowP => j; rewrite !mxE weights0 mul0r. Qed.

Lemma letkf_scaled0 : scaled = 0.
Proof.
by apply/matrixP => i j; rewrite letkf_eff0 !mxE np_sqrt0 mulr0.
Qed.

Lemma letkf_sing_val0 :
  letkf_sing_val la x_forecast obs_noise_std localisation_weights = 0.
Proof. by have [] := svd_zero letkf_scaled0 svd_ok. Qed.

Lemma letkf_eigvec_orth :
  letkf_eigvec_p la x_forecast obs_noise_std localisation_weights *m
  (letkf_eigvec_p la x_forecast obs_noise_std localisation_weights)^T = 1%:M.
Proof. by have [] := svd_zero letkf_scaled0 svd_ok. Qed.

Lemma letkf_eigval_p_inv0 i :
  letkf_eigval_p_inv la self x_forecast obs_noise_std localisation_weights 0 i
  = kappa.
Proof.
rewrite mxE letkf_sing_val0 -/kappa.
by case: insub => [k|] /=; rewrite ?mxE ?expr0n ?addr0.
Qed.

Lemma letkf_dw_matrix0 :
  letkf_dw_matrix la self x_forecast obs_noise_std localisation_weights =
  np_sqrt infl *: 1%:M.
Proof.
rewrite /letkf_dw_matrix.
have -> : map_mx np_sqrt
            (letkf_eigval_p la self x_forecast obs_noise_std
               localisation_weights) = const_mx (np_sqrt (1 / kappa)).
  by apply/rowP => i; rewrite mxE [in LHS]mxE letkf_eigval_p_inv0 [RHS]mxE.
have -> : np_mul_row
            (letkf_eigvec_p la x_forecast obs_noise_std localisation_weights)
            (const_mx (np_sqrt (1 / kappa))) =
          np_sqrt (1 / kappa) *:
          letkf_eigvec_p la x_forecast obs_noise_std localisation_weights.
  by apply/matrixP => i j; rewrite !mxE mulrC.
rewrite -scalemxAl letkf_eigvec_orth scalerA; congr (_ *: _).
have k0 := letkf_kappa_gt0; have i0 := letkf_infl_gt0.
have n0 : 0 < N%:R - 1 :> R by rewrite subr_gt0 ltr1n.
rewrite -np_sqrtM; [exact: ltW|by rewrite ltW // divr_gt0|].
have ni0 : infl != 0 by exact: lt0r_neq0.
have nn0 : N%:R - 1 != 0 :> R by exact: lt0r_neq0.
by congr np_sqrt; rewrite /kappa /letkf_n_p; field; rewrite ni0 nn0.
Qed.

Lemma letkf_w_matrix0 :
  letkf_w_matrix la self x_forecast x_observed obs_noise_std
    localisation_weights = np_sqrt infl *: 1%:M.
Proof.
apply/matrixP => i j; rewrite mxE letkf_dw_matrix0.
rewrite /letkf_w_mean /letkf_d_vector letkf_eff0.
have -> : np_mul_row (letkf_dx_forecast x_forecast) 0 = 0.
  by apply/matrixP => k l; rewrite !mxE mulr0.
rewrite mul0mx mulmx0.
rewrite [X in _ *m X](_ : _ = 0); last first.
  by rewrite mulmx0 mxE add0r.
by apply/colP => k; rewrite !mxE mulr0.
Qed.

Lemma local_analysis_update0 :
  local_analysis_update la self z_forecast x_forecast x_observed obs_noise_std
    localisation_weights =
  np_row_add (np_mean0 z_forecast)
    (np_sqrt infl *: np_sub_row z_forecast (np_mean0 z_forecast)).
Proof.
by rewrite /local_analysis_update letkf_w_matrix0 -scalemxAl mul1mx.
Qed.

(** C4: with every localisation weight 0 (and at least two particles,
    positive noise standard deviations, inflation factor at least 1) the
    localised update divides by no zero, keeps the forecast mean and
    scales the forecast spread by the square root of the inflation
    factor. *)
Theorem letkf_zero_weights :
  let z_a :=
    local_analysis_update la self z_forecast x_forecast x_observed
      obs_noise_std localisation_weights in
  [/\ [/\ forall j, obs_noise_std 0 j ^+ 2 != 0,
          inflation_factor self != 0,
          N%:R != 0 :> R &
          forall i,
            letkf_eigval_p_inv la self x_forecast obs_noise_std
              localisation_weights 0 i != 0],
      np_mean0 z_a = np_mean0 z_forecast &
      np_std0 z_a = np_sqrt (inflation_factor self) *: np_std0 z_forecast].
Proof.
have N0 : (0 < N)%N by exact: ltnW.
have c0 : np_mean0 (np_sqrt infl *:
            np_sub_row z_forecast (np_mean0 z_forecast)) = 0.
  by apply/rowP => j; rewrite np_mean0Z np_mean0_centred mulr0 mxE.
move=> /=; split.
- split=> [j|||i].
  + by rewrite expf_neq0 // lt0r_neq0.
  + exact: lt0r_neq0 letkf_infl_gt0.
  + by rewrite pnatr_eq0 -lt0n.
  + by rewrite letkf_eigval_p_inv0 lt0r_neq0 // letkf_kappa_gt0.
- apply/rowP => j.
  by rewrite local_analysis_update0 np_mean0_row_add // c0 [X in _ + X]mxE addr0.
- rewrite /np_std0 local_analysis_update0 np_sub_row_add // np_sub_row0 //.
  apply/rowP => j; rewrite np_squareZ [LHS]mxE np_mean0Z [RHS]mxE [in RHS]mxE.
  rewrite np_sqrtM ?sqr_ge0 ?np_mean0_square_ge0 //; congr (_ * _).
  by rewrite expr2 np_sqrt_sqr // ltW // letkf_infl_gt0.
Qed.

End ZeroWeights.

(** * Divisors of the deterministic updates *)

Lemma np_sub_row_single d (A : 'M[R]_(1, d)) : np_sub_row A (np_mean0 A) = 0.
Proof.
apply/matrixP => i j; rewrite !mxE big_ord_recl big_ord0 addr0 divr1.
by rewrite !ord1 subrr.
Qed.

Section Divisors.

Variable la : linalg.
Variables (N Dz Dx : nat).

Lemma wesrf_d_matrix_unit (wb : WoodburyEnsembleSquareRootFilter N Dz Dx)
    (z_forecast : 'M[R]_(N, Dz)) (t : nat) :
  (2 <= N)%N -> posdef (preci_matrix (obser_noise_preci wb)) ->
  wesrf_d_matrix wb z_forecast t \in unitmx.
Proof.
move=> N2 pp; apply: posdef_unit.
rewrite /wesrf_d_matrix /wesrf_c_matrix wesrf_a_matrixE mulmxA.
by apply: posdef_scalar_add => //; rewrite subr_gt0 ltr1n.
Qed.

Lemma letkf_eigval_p_inv_gt0 (self : LocalEnsembleTransformKalmanFilter)
    (x_forecast : 'M[R]_(N, Dx)) (obs_noise_std weights : 'rV[R]_Dx) i :
  (2 <= N)%N -> 1 <= inflation_factor self ->
  0 < letkf_eigval_p_inv la self x_forecast obs_noise_std weights 0 i.
Proof.
move=> N2 i1; rewrite mxE ltr_pwDl //.
  rewrite mul1r divr_gt0 ?subr_gt0 ?ltr1n //.
  exact: lt_le_trans ltr01 i1.
by case: insub => [k|] //=; rewrite sqr_ge0.
Qed.

Variable sq : EnsembleSquareRootFilter N Dz Dx.
Variable wb : WoodburyEnsembleSquareRootFilter N Dz Dx.
Variable lt : LocalEnsembleTransformKalmanFilter.
Variables (z_forecast : 'M[R]_(N, Dz)) (x_forecast : 'M[R]_(N, Dx)).
Variables (obs_noise_std weights : 'rV[R]_Dx) (t : nat).

Variable sq1 : EnsembleSquareRootFilter 1 Dz Dx.
Variable wb1 : WoodburyEnsembleSquareRootFilter 1 Dz Dx.
Variables (z1 : 'M[R]_(1, Dz)) (x1 : 'M[R]_(1, Dx)).

(** C10: with at least two particles, a positive-definite noise covariance
    (square-root update), a positive-definite precision (Woodbury update)
    and positive noise standard deviations with an inflation factor at
    least 1 (localised update), the eigenvalues [eigval_c], the matrix
    [d_matrix] handed to [solve], the factor [n_particles - 1] and the
    eigenvalues [eigval_p_inv] the updates divide by are nonzero (the
    matrix: nonsingular); with a single particle all of them are zero. *)
Theorem division_safety :
  (2 <= N)%N ->
  posdef (obser_noise_covar sq) ->
  posdef (preci_matrix (obser_noise_preci wb)) ->
  (forall j, 0 < obs_noise_std 0 j) ->
  1 <= inflation_factor lt ->
  eigh_spec (esrf_c_matrix sq z_forecast t)
            (la_eigh la (esrf_c_matrix sq z_forecast t)) ->
  eigh_spec (esrf_c_matrix sq1 z1 t) (la_eigh la (esrf_c_matrix sq1 z1 t)) ->
  svd_spec
    (np_mul_row (letkf_dx_forecast x1)
       (map_mx np_sqrt (letkf_eff_inv_obs_var obs_noise_std weights)))
    (letkf_svd la x1 obs_noise_std weights) ->
  [/\ forall j, esrf_eigval_c la sq z_forecast t 0 j != 0,
      wesrf_d_matrix wb z_forecast t \in unitmx /\
      wesrf_n_particles N - 1 != 0 &
      (forall j, obs_noise_std 0 j ^+ 2 != 0) /\ inflation_factor lt != 0 /\
      forall i,
        letkf_eigval_p_inv la lt x_forecast obs_noise_std weights 0 i != 0] /\
  [/\ forall j, esrf_eigval_c la sq1 z1 t 0 j = 0,
      wesrf_d_matrix wb1 z1 t = 0 /\ wesrf_n_particles 1 - 1 = 0 &
      forall i, letkf_eigval_p_inv la lt x1 obs_noise_std weights 0 i = 0].
Proof.
move=> N2 pc pp sd i1 ec ec1 sv.
have n1 : 0 < N%:R - 1 :> R by rewrite subr_gt0 ltr1n.
split; split.
- move=> j; apply: lt0r_neq0; apply: eigh_posdef_eigval ec _.
  exact: posdef_gram_add.
- by split; [exact: wesrf_d_matrix_unit | exact: lt0r_neq0].
- split; first by move=> j; rewrite expf_neq0 // lt0r_neq0.
  split; first exact/lt0r_neq0/(lt_le_trans ltr01 i1).
  by move=> i; apply: lt0r_neq0; exact: letkf_eigval_p_inv_gt0.
- move=> j; rewrite /esrf_eigval_c (eigh_eigval j ec1).
  rewrite /esrf_c_matrix /esrf_dx_forecast np_sub_row_single.
  by rewrite /esrf_n_particles subrr scale0r mulmx0 addr0 mulmx0 mul0mx mxE.
- rewrite /wesrf_d_matrix /wesrf_c_matrix /wesrf_dx_forecast.
  by rewrite np_sub_row_single /wesrf_n_particles subrr scale0r mul0mx addr0.
- have s0 : np_mul_row (letkf_dx_forecast x1)
       (map_mx np_sqrt (letkf_eff_inv_obs_var obs_noise_std weights)) = 0.
    rewrite /letkf_dx_forecast np_sub_row_single.
    by apply/matrixP => i j; rewrite !mxE mul0r.
  have [e _] := svd_zero s0 sv.
  move=> i; rewrite mxE /letkf_sing_val e /letkf_n_p subrr mulr0 mul0r add0r.
  by case: insub => [k|] //=; rewrite mxE expr0n.
Qed.

End Divisors.

(** * The worked example meets the contracts *)

Lemma ex_eigh_spec (a : 'M[R]_1) : eigh_spec a (ex_eigh a).
Proof.
split; rewrite /= ?trmx1 ?mulmx1 // mul1mx.
by apply/matrixP => i j; rewrite !mxE !ord1 eqxx mulr1n.
Qed.

Lemma ex_solve_spec n m (a : 'M[R]_n) (b : 'M[R]_(n, m)) :
  solve_spec a b (ex_solve a b).
Proof. by move=> ua; rewrite /ex_solve mulKVmx. Qed.

Lemma ex_svd_spec m n (a : 'M[R]_(m, n)) : a = 0 -> svd_spec a (ex_svd a).
Proof.
move=> ->; split=> /= [||k|]; rewrite ?trmx1 ?mulmx1 //; first by rewrite mxE.
rewrite mul1mx; apply/matrixP => i j; rewrite !mxE.
by case: eqP => // _; case: insub => [k|] //=; rewrite mxE.
Qed.

Lemma posdef1 n : posdef (1%:M : 'M[R]_n).
Proof.
by split=> [|v v0]; rewrite ?trmx1 // mulmx1 row_sqnorm_gt0.
Qed.

Lemma ex_covar_posdef : posdef (obser_noise_covar ex_sq).
Proof. by rewrite /obser_noise_covar /= trmx1 mulmx1; exact: posdef1. Qed.

Lemma esrf_wesrf_same_mean_witness :
  (esrf_analysis_update ex_linalg ex_sq ex_z ex_x 0).1.1.2 =
  (wesrf_analysis_update ex_linalg ex_wb ex_z ex_x 0).1.1.2.
Proof.
apply: esrf_wesrf_same_mean => //.
- exact: ex_covar_posdef.
- by rewrite /obser_noise_covar /= trmx1 !mulmx1.
- exact: ex_eigh_spec.
- exact: ex_solve_spec.
Defined.

Lemma eigenvalue_warning_exact_witness :
  np_clip_above (esrf_eigval_m ex_linalg ex_sq ex_z 0) 1 0 ord0 <= 1 /\
  np_clip_above (wesrf_eigval_m ex_linalg ex_wb ex_z 0) 1 0 ord0 <= 1.
Proof.
have [_ _ _ _ clip] :=
  @eigenvalue_warning_exact ex_linalg 2 1 1 ex_sq ex_wb ex_z ex_x 0
    (erefl true) (erefl true).
exact: clip.
Defined.

Lemma letkf_zero_weights_witness :
  np_mean0 (local_analysis_update ex_linalg ex_lt ex_z ex_z ex_x
              (const_mx 1) 0) = np_mean0 ex_z.
Proof.
have w0 (j : 'I_1) : (0 : 'rV[R]_1) 0 j = 0 by rewrite mxE.
have [] // := @letkf_zero_weights ex_linalg 2 1 1 ex_lt ex_z ex_z ex_x
  (const_mx 1) 0 (leqnn 2) _ (lexx 1) w0.
- by move=> j; rewrite mxE ltr01.
- by apply: ex_svd_spec; exact: letkf_scaled0.
Defined.

Lemma division_safety_witness :
  (forall j, esrf_eigval_c ex_linalg ex_sq ex_z 0 0 j != 0) /\
  (forall j, esrf_eigval_c ex_linalg ex_sq1 ex_z1 0 0 j = 0).
Proof.
have [] := @division_safety ex_linalg 2 1 1 ex_sq ex_wb ex_lt ex_z ex_z
  (const_mx 1) 0 0%N ex_sq1 ex_wb1 ex_z1 ex_z1 (leqnn 2) ex_covar_posdef
  (posdef1 1).
- by move=> j; rewrite mxE ltr01.
- exact: lexx.
- exact: ex_eigh_spec.
- exact: ex_eigh_spec.
- apply: ex_svd_spec; rewrite /letkf_dx_forecast np_sub_row_single.
  by apply/matrixP => i j; rewrite !mxE mul0r.
by case=> h _ _ [h1 _ _].
Defined.

(** * The warning threshold carries no tolerance *)

Section WarningTolerance.

Variable tol : R.
Hypothesis tol_gt0 : 0 < tol.

Let uu : 'M[R]_2 := eng_z *m eng_z^T.

Lemma eng_dx : wesrf_dx_forecast (eng_wb tol) eng_z 0 = eng_z.
Proof.
apply/matrixP => i j; rewrite /wesrf_dx_forecast /wesrf_x_mean_forecast.
rewrite /wesrf_x_forecast /= /ex_obs !mxE !big_ord_recl big_ord0 !mxE /=.
by rewrite addr0 subrr mul0r subr0.
Qed.

Lemma eng_uu_sq : uu *m uu = 2 *: uu.
Proof.
rewrite /uu mulmxA -[eng_z *m _ *m _]mulmxA.
have -> : eng_z^T *m eng_z = 2%:M.
  apply/matrixP => i j; rewrite !mxE !big_ord_recl big_ord0 !mxE /= !ord1.
  by rewrite eqxx mulr1n mulrNN !mulr1 addr0.
by rewrite mul_mx_scalar -scalemxAl.
Qed.

Lemma eng_c : wesrf_c_matrix (eng_wb tol) eng_z 0 = eng_preci tol *: uu.
Proof.
by rewrite /wesrf_c_matrix wesrf_a_matrixE eng_dx /= mul_scalar_mx -scalemxAr.
Qed.

Lemma eng_solve_spec :
  solve_spec (wesrf_d_matrix (eng_wb tol) eng_z 0) (wesrf_c_matrix (eng_wb tol) eng_z 0)
             (wesrf_e_matrix (eng_linalg tol) (eng_wb tol) eng_z 0).
Proof.
move=> _; rewrite /wesrf_e_matrix /= /eng_solve /wesrf_d_matrix eng_c.
rewrite -scalemxAr mulmxDl -scalemxAl mul1mx -!scalemxAl -scalemxAr eng_uu_sq.
rewrite !scalerA -!scalerDl scalerA; congr (_ *: _).
have t0 : tol != 0 by exact: lt0r_neq0.
by rewrite /wesrf_n_particles /eng_preci; field.
Qed.

Lemma eng_m :
  wesrf_m_matrix (eng_linalg tol) (eng_wb tol) eng_z 0 = ((1 + tol) / 2) *: uu.
Proof.
rewrite /wesrf_m_matrix /wesrf_e_matrix /= /eng_solve eng_c np_div_scalarE.
rewrite -scalemxAr -!scalemxAl -scalemxAr eng_uu_sq !scalerA -scalerBl scalerA.
congr (_ *: _).
have t0 : tol != 0 by exact: lt0r_neq0.
by rewrite /wesrf_n_particles /eng_preci; field.
Qed.

Lemma eng_inv_sqrt2 : (np_sqrt 2)^-1 * (np_sqrt 2)^-1 = 2^-1.
Proof. by rewrite -invfM np_sqrt_sqr // ler0n. Qed.

Lemma eng_eigh_spec :
  eigh_spec (wesrf_m_matrix (eng_linalg tol) (eng_wb tol) eng_z 0)
            (la_eigh (eng_linalg tol) (wesrf_m_matrix (eng_linalg tol) (eng_wb tol) eng_z 0)).
Proof.
have hs := eng_inv_sqrt2; set s := (np_sqrt 2)^-1 in hs.
have hst : tol * (s * s) = tol * 2^-1 by rewrite hs.
split; rewrite ?eng_m /= -/s; apply/matrixP => i j;
  case: i => [[|[|i]] hi] //; case: j => [[|[|j]] hj] //;
  do ?[rewrite mxE | rewrite big_ord_recl | rewrite big_ord0] => /=;
  rewrite ?mulr0n ?mulr1n; nra.
Qed.

(** With [warn] set the update warns on this input, although no
    eigenvalue exceeds 1 by more than [tol]. *)
Lemma eng_warns :
  (wesrf_analysis_update (eng_linalg tol) (eng_wb tol) eng_z 0 0).2 <> [::] /\
  ~ exceeds_bound_by tol (wesrf_eigval_m (eng_linalg tol) (eng_wb tol) eng_z 0).
Proof.
split.
  rewrite /= /eigenvalue_warnings /=.
  have -> // : np_any_gt (wesrf_eigval_m (eng_linalg tol) (eng_wb tol) eng_z 0) 1.
  by apply/existsP; exists (lift ord0 ord0); rewrite mxE /= ltrDl.
case=> j; rewrite mxE; case: ifP => _; first by rewrite ltxx.
by rewrite ltNge addr_ge0 // ltW.
Qed.

End WarningTolerance.

(** C3 as worded fails: whatever positive tolerance is chosen, there is a
    call with [warn] set (and exact [eigh] and [solve]) that warns although
    no eigenvalue exceeds 1 by more than the tolerance. *)
Lemma warning_tolerance_counterexample :
  ~ exists tol : R, 0 < tol /\
      forall (la : linalg) (wb : WoodburyEnsembleSquareRootFilter 2 1 1)
             (z : 'M[R]_(2, 1)) (x : 'rV[R]_1) (t : nat),
        wesrf_warn wb ->
        eigh_spec (wesrf_m_matrix la wb z t)
                  (la_eigh la (wesrf_m_matrix la wb z t)) ->
        solve_spec (wesrf_d_matrix wb z t) (wesrf_c_matrix wb z t)
                   (wesrf_e_matrix la wb z t) ->
        ((wesrf_analysis_update la wb z x t).2 <> [::] <->
         exceeds_bound_by tol (wesrf_eigval_m la wb z t)).
Proof.
case=> tol [t0 claim]; have [warns quiet] := eng_warns t0.
have [h _] := claim (eng_linalg tol) (eng_wb tol) eng_z 0 0%N (erefl true)
  (eng_eigh_spec t0) (eng_solve_spec t0).
exact: quiet (h warns).
Qed.

(** * The matrix handed to la.solve

    For a single particle the Woodbury update hands [la.solve] the zero
    matrix: the call raises on every ensemble of one particle.  With two
    particles or more and a positive-definite precision the matrix is
    nonsingular ([wesrf_d_matrix_unit]). *)

Lemma wesrf_d_matrix_single_singular Dz Dx
    (wb : WoodburyEnsembleSquareRootFilter 1 Dz Dx) (z : 'M[R]_(1, Dz))
    (t : nat) :
  wesrf_d_matrix wb z t \notin unitmx.
Proof.
have -> : wesrf_d_matrix wb z t = 0.
  rewrite /wesrf_d_matrix /wesrf_c_matrix /wesrf_dx_forecast.
  by rewrite np_sub_row_single /wesrf_n_particles subrr scale0r mul0mx addr0.
by rewrite unitmxE det0 unitr0.
Qed.

(** * Shapes of the analysis ensembles *)

Section ShapeFacts.

Import Shapes.
Local Open Scope string_scope.

Lemma broadcast_dimxx a : broadcast_dim a a = Some a.
Proof. by rewrite /broadcast_dim eqxx. Qed.

Lemma broadcast_dim1 a : broadcast_dim 1 a = Some a.
Proof. by rewrite /broadcast_dim eq_sym; case: eqP => // ->. Qed.

Lemma broadcast_dimx1 a : broadcast_dim a 1 = Some a.
Proof. by rewrite /broadcast_dim; case: eqP. Qed.

Lemma broadcast_dim_mismatch a b :
  a != b -> a != 1 -> b != 1 -> broadcast_dim a b = None.
Proof. by rewrite /broadcast_dim => /negbTE -> /negbTE -> /negbTE ->. Qed.

Lemma np_broadcast_mm (n d : nat) :
  np_broadcast [:: n; d] [:: n; d] = Returned [:: n; d].
Proof. by rewrite /np_broadcast /= !broadcast_dimxx. Qed.

Lemma np_broadcast_vv (d : nat) : np_broadcast [:: d] [:: d] = Returned [:: d].
Proof. by rewrite /np_broadcast /= !broadcast_dimxx. Qed.

Lemma np_broadcast_mv (n d : nat) :
  np_broadcast [:: n; d] [:: d] = Returned [:: n; d].
Proof. by rewrite /np_broadcast /= !broadcast_dimxx. Qed.

Lemma np_broadcast_vm (n d : nat) :
  np_broadcast [:: d] [:: n; d] = Returned [:: n; d].
Proof. by rewrite /np_broadcast /= !broadcast_dimxx. Qed.

Lemma np_broadcast_sm (n d : nat) :
  np_broadcast [::] [:: n; d] = Returned [:: n; d].
Proof. by []. Qed.

Lemma np_broadcast_1m (n : nat) :
  np_broadcast [:: 1; n] [:: n; n] = Returned [:: n; n].
Proof. by rewrite /np_broadcast /= broadcast_dimxx broadcast_dim1. Qed.

Lemma np_dot_mm (n k m : nat) :
  np_dot [:: n; k] [:: k; m] = Returned [:: n; m].
Proof. by rewrite /np_dot /= eqxx. Qed.

Lemma np_dot_vm (k m : nat) : np_dot [:: k] [:: k; m] = Returned [:: m].
Proof. by rewrite /np_dot /= eqxx. Qed.

Lemma np_dot_mv (n k : nat) : np_dot [:: n; k] [:: k] = Returned [:: n].
Proof. by rewrite /np_dot /= eqxx. Qed.

Definition shape_simp :=
  (np_broadcast_mm, np_broadcast_vv, np_broadcast_mv, np_broadcast_vm,
   np_broadcast_sm, np_broadcast_1m, np_dot_mm, np_dot_vm, np_dot_mv, eqxx).

Variables (N Dz Dx : nat).
Variable obs : shape -> shape.
Hypothesis obs_shape : obs [:: N; Dz] = [:: N; Dx].

Lemma enkf_shape :
  enkf_analysis_update obs [:: N; Dz] [:: Dx] =
  (enkf_assignments, Returned ([:: N; Dz], [:: Dz], [:: Dz])).
Proof.
by rewrite /enkf_analysis_update obs_shape /= /np_T /=;
   do ?[rewrite shape_simp /=].
Qed.

Lemma esrf_shape :
  esrf_analysis_update (Build_EnsembleSquareRootFilter obs [:: Dx; Dx])
    [:: N; Dz] [:: Dx] =
  (esrf_assignments, Returned ([:: N; Dz], [:: Dz], [:: Dz])).
Proof.
by rewrite /esrf_analysis_update /= obs_shape /= /np_T /=;
   do ?[rewrite shape_simp /=].
Qed.

Lemma wesrf_shape p singular :
  p \in [:: [::]; [:: Dx]; [:: Dx; Dx]] ->
  wesrf_analysis_update (Build_WoodburyEnsembleSquareRootFilter obs p)
    singular [:: N; Dz] [:: Dx] =
  if singular
  then (through "d_matrix" wesrf_assignments, Raised LinAlgError)
  else (wesrf_assignments, Returned ([:: N; Dz], [:: Dz], [:: Dz])).
Proof.
rewrite !inE => /or3P[] /eqP ->; case: singular;
  by rewrite /wesrf_analysis_update /= obs_shape /= /np_T /=;
     do ?[rewrite shape_simp /=].
Qed.

Lemma letkf_shape :
  local_analysis_update [:: N; Dz] [:: N; Dx] [:: Dx] [:: Dx] [:: Dx] =
  (letkf_assignments, Returned [:: N; Dz]).
Proof.
rewrite /local_analysis_update /= /np_T /=; do ?[rewrite shape_simp /=].
rewrite /np_iadd_slice [minn Dx N]minnC; do ?[rewrite shape_simp /=].
by rewrite /np_T /=; do ?[rewrite shape_simp /=].
Qed.

(** C8: for consistent inputs the analysis ensemble an update returns has
    the shape (N, D_z) of the forecast ensemble (with a mean and a spread
    of length D_z).  The perturbed-observation, square-root and localised
    updates always return one.  The Woodbury update, for a scalar, a
    diagonal and a dense precision alike, returns one unless [la.solve]
    finds [d_matrix] singular; it then raises [LinAlgError] after the
    assignment of [d_matrix] and returns nothing. *)
Theorem analysis_ensemble_shape :
  [/\ (enkf_analysis_update obs [:: N; Dz] [:: Dx]).2 =
        Returned ([:: N; Dz], [:: Dz], [:: Dz]),
      (esrf_analysis_update (Build_EnsembleSquareRootFilter obs [:: Dx; Dx])
         [:: N; Dz] [:: Dx]).2 =
        Returned ([:: N; Dz], [:: Dz], [:: Dz]),
      forall p singular, p \in [:: [::]; [:: Dx]; [:: Dx; Dx]] ->
        wesrf_analysis_update (Build_WoodburyEnsembleSquareRootFilter obs p)
          singular [:: N; Dz] [:: Dx] =
        if singular
        then (through "d_matrix" wesrf_assignments, Raised LinAlgError)
        else (wesrf_assignments, Returned ([:: N; Dz], [:: Dz], [:: Dz])) &
      (local_analysis_update [:: N; Dz] [:: N; Dx] [:: Dx] [:: Dx] [:: Dx]).2 =
        Returned [:: N; Dz]].
Proof.
split; [by rewrite enkf_shape | by rewrite esrf_shape | | by rewrite letkf_shape].
by move=> p singular; exact: wesrf_shape.
Qed.

End ShapeFacts.

Lemma analysis_ensemble_shape_witness :
  (Shapes.wesrf_analysis_update
     (Shapes.Build_WoodburyEnsembleSquareRootFilter (fun=> [:: 2; 1]) [::])
     false [:: 2; 3] [:: 1]).2 =
  Shapes.Returned ([:: 2; 3], [:: 3], [:: 3]).
Proof.
have [_ _ h _] := @analysis_ensemble_shape 2 3 1 (fun=> [:: 2; 1]) (erefl _).
by rewrite (h [::] false (mem_head _ _)).
Defined.

(** * Ill-shaped inputs *)

Section ShapeErrors.

Import Shapes.
Local Open Scope string_scope.

Lemma trace_bind_ok A B (name : string) (a : A) (f : A -> comp B) :
  (bind (assign name (Returned a)) f).1 = name :: (f a).1.
Proof. by rewrite /bind /=; case: (f a). Qed.

Lemma np_broadcast_v1 (a : nat) : np_broadcast [:: a] [:: 1] = Returned [:: a].
Proof. by rewrite /np_broadcast /= broadcast_dimx1. Qed.

Lemma np_broadcast_1v (a : nat) : np_broadcast [:: 1] [:: a] = Returned [:: a].
Proof. by rewrite /np_broadcast /= broadcast_dim1. Qed.

Lemma np_broadcast_1vm (n a : nat) :
  np_broadcast [:: 1] [:: n; a] = Returned [:: n; a].
Proof. by rewrite /np_broadcast /= broadcast_dim1. Qed.

Lemma np_broadcast_vm1 (n a : nat) :
  np_broadcast [:: a] [:: n; 1] = Returned [:: n; a].
Proof. by rewrite /np_broadcast /= broadcast_dimx1. Qed.

Section ObservedLength.

Variables (N Dz Dx L : nat).

Let accepted := (L == Dx) || (L == 1).

Lemma enkf_observed_length :
  enkf_analysis_update (fun=> [:: N; Dx]) [:: N; Dz] [:: L] =
  if accepted
  then (enkf_assignments, Returned ([:: N; Dz], [:: Dz], [:: Dz]))
  else (through (if Dx == 1 then "dx_error" else "dx_forecast")
          enkf_assignments, Raised ValueError).
Proof.
rewrite /accepted; case: (altP (L =P Dx)) => [->|nLD] /=.
  by rewrite enkf_shape.
case: (altP (L =P 1)) => [->|nL1] /=.
  by rewrite /enkf_analysis_update /= /np_T /=;
     do ?[rewrite np_broadcast_1vm /= | rewrite shape_simp /=].
case: (altP (Dx =P 1)) => [->|nD1] /=.
  rewrite /enkf_analysis_update /= /np_T /=; do ?[rewrite shape_simp /=].
  by rewrite np_broadcast_vm1 /= /np_dot /= (negbTE nL1).
rewrite /enkf_analysis_update /= /np_T /=; do ?[rewrite shape_simp /=].
by rewrite /np_broadcast /= broadcast_dim_mismatch.
Qed.

Lemma esrf_observed_length :
  esrf_analysis_update
    (Build_EnsembleSquareRootFilter (fun=> [:: N; Dx]) [:: Dx; Dx])
    [:: N; Dz] [:: L] =
  if accepted
  then (esrf_assignments, Returned ([:: N; Dz], [:: Dz], [:: Dz]))
  else (through "k_gain" esrf_assignments, Raised ValueError).
Proof.
rewrite /accepted; case: (altP (L =P Dx)) => [->|nLD] /=.
  by rewrite esrf_shape.
case: (altP (L =P 1)) => [->|nL1] /=.
  by rewrite /esrf_analysis_update /= /np_T /=;
     do ?[rewrite np_broadcast_1v /= | rewrite shape_simp /=].
case: (altP (Dx =P 1)) => [->|nD1] /=.
  rewrite /esrf_analysis_update /= /np_T /=; do ?[rewrite shape_simp /=].
  by rewrite np_broadcast_v1 /= /np_dot /= (negbTE nL1).
rewrite /esrf_analysis_update /= /np_T /=; do ?[rewrite shape_simp /=].
by rewrite /np_broadcast /= broadcast_dim_mismatch.
Qed.

Lemma wesrf_observed_length p singular :
  p \in [:: [::]; [:: Dx]; [:: Dx; Dx]] ->
  wesrf_analysis_update
    (Build_WoodburyEnsembleSquareRootFilter (fun=> [:: N; Dx]) p)
    singular [:: N; Dz] [:: L] =
  if accepted then
    if singular
    then (through "d_matrix" wesrf_assignments, Raised LinAlgError)
    else (wesrf_assignments, Returned ([:: N; Dz], [:: Dz], [:: Dz]))
  else (through (if Dx == 1 then "a_matrix" else "dx_forecast")
          wesrf_assignments, Raised ValueError).
Proof.
move=> pin; rewrite /accepted; case: (altP (L =P Dx)) => [->|nLD] /=.
  by rewrite wesrf_shape.
move: pin; rewrite !inE => /or3P[] /eqP ->;
case: (altP (L =P 1)) => [->|nL1] /=;
  try (by case: singular; rewrite /wesrf_analysis_update /= /np_T /=;
          do ?[rewrite np_broadcast_1v /= | rewrite shape_simp /=]);
case: (altP (Dx =P 1)) => [->|nD1] /=;
  try (by rewrite /wesrf_analysis_update /= /np_T /=;
          do ?[rewrite np_broadcast_v1 /= | rewrite shape_simp /=];
          rewrite /np_dot /= (negbTE nL1));
  by rewrite /wesrf_analysis_update /= /np_T /=; do ?[rewrite shape_simp /=];
     rewrite /np_broadcast /= broadcast_dim_mismatch.
Qed.

Lemma letkf_observed_length :
  local_analysis_update [:: N; Dz] [:: N; Dx] [:: L] [:: Dx] [:: Dx] =
  if accepted then (letkf_assignments, Returned [:: N; Dz])
  else (through "dw_matrix" letkf_assignments, Raised ValueError).
Proof.
rewrite /accepted; case: (altP (L =P Dx)) => [->|nLD] /=.
  by rewrite letkf_shape.
case: (altP (L =P 1)) => [->|nL1] /=.
  rewrite /local_analysis_update /= /np_T /=; do ?[rewrite shape_simp /=].
  rewrite /np_iadd_slice [minn Dx N]minnC; do ?[rewrite shape_simp /=].
  by rewrite /np_T /=; do ?[rewrite np_broadcast_1v /= | rewrite shape_simp /=].
case: (altP (Dx =P 1)) => [->|nD1] /=.
  rewrite /local_analysis_update /= /np_T /=; do ?[rewrite shape_simp /=].
  rewrite /np_iadd_slice [minn 1 N]minnC; do ?[rewrite shape_simp /=].
  rewrite /np_T /=; do ?[rewrite np_broadcast_v1 /= | rewrite shape_simp /=].
  by rewrite /np_dot /= eq_sym (negbTE nL1).
rewrite /local_analysis_update /= /np_T /=; do ?[rewrite shape_simp /=].
rewrite /np_iadd_slice [minn Dx N]minnC; do ?[rewrite shape_simp /=].
rewrite /np_T /=; do ?[rewrite shape_simp /=].
by rewrite /np_broadcast /= broadcast_dim_mismatch.
Qed.

Lemma wesrf_precision_dimension (P : nat) singular :
  wesrf_analysis_update
    (Build_WoodburyEnsembleSquareRootFilter (fun=> [:: N; Dx]) [:: P; P])
    singular [:: N; Dz] [:: Dx] =
  if P == Dx then
    if singular
    then (through "d_matrix" wesrf_assignments, Raised LinAlgError)
    else (wesrf_assignments, Returned ([:: N; Dz], [:: Dz], [:: Dz]))
  else (through "dx_error" wesrf_assignments, Raised ValueError).
Proof.
case: (altP (P =P Dx)) => [->|nPD].
  by rewrite wesrf_shape // !inE eqxx !orbT.
rewrite /wesrf_analysis_update /= /np_T /=; do ?[rewrite shape_simp /=].
by rewrite /np_dot /= (negbTE nPD).
Qed.

End ObservedLength.

(** C7, as the code has it: no update checks its inputs on entry.  On a
    forecast ensemble of shape (N, D_z), whatever the other shapes are, the
    first assignments of every update complete before anything can raise.
    With the other inputs consistent, an observed vector whose length L is
    neither D_x nor 1 makes the first operation whose operands do not
    conform raise numpy's [ValueError] from inside the update: in the
    perturbed-observation update at [dx_error] (at the product of
    [z_analysis] when D_x = 1); in the square-root update at
    [z_mean_analysis], after the eigendecomposition of [c_matrix] and the
    gain; in the Woodbury update at [dx_error] (at [b_vector] when
    D_x = 1), before [la.solve] and the eigendecomposition; in the
    localised update at [d_vector], after the singular value decomposition
    and [dw_matrix].  An observed vector of length 1 broadcasts and is
    accepted like one of length D_x.  A dense precision of dimension
    P <> D_x makes the Woodbury update raise at [a_matrix]. *)
Theorem no_shape_validation (N Dz Dx L P : nat) (singular : bool)
    (sampler : shape -> shape) (sq : EnsembleSquareRootFilter)
    (wb : WoodburyEnsembleSquareRootFilter)
    (x_forecast x_observed obs_noise_std localisation_weights : shape) :
  let accepted := (L == Dx) || (L == 1) in
  let returned := Returned ([:: N; Dz], [:: Dz], [:: Dz]) in
  let woodbury p :=
    wesrf_analysis_update
      (Build_WoodburyEnsembleSquareRootFilter (fun=> [:: N; Dx]) p)
      singular [:: N; Dz] in
  let woodbury_consistent :=
    if singular
    then (through "d_matrix" wesrf_assignments, Raised LinAlgError)
    else (wesrf_assignments, returned) in
  let woodbury_observed :=
    if accepted then woodbury_consistent
    else (through (if Dx == 1 then "a_matrix" else "dx_forecast")
            wesrf_assignments, Raised ValueError) in
  [/\ exists tr,
        (enkf_analysis_update sampler [:: N; Dz] x_observed).1 =
        [:: "x_forecast", "dz_forecast" & tr],
      exists tr,
        (esrf_analysis_update sq [:: N; Dz] x_observed).1 =
        [:: "n_particles", "z_mean_forecast", "dz_forecast", "x_forecast"
            & tr],
      exists tr,
        (wesrf_analysis_update wb singular [:: N; Dz] x_observed).1 =
        [:: "n_particles", "z_mean_forecast", "dz_forecast", "x_forecast"
            & tr] &
      exists tr,
        (local_analysis_update [:: N; Dz] x_forecast x_observed obs_noise_std
           localisation_weights).1 =
        [:: "n_p", "z_mean_forecast", "dz_forecast" & tr]] /\
  [/\ enkf_analysis_update (fun=> [:: N; Dx]) [:: N; Dz] [:: L] =
        if accepted then (enkf_assignments, returned)
        else (through (if Dx == 1 then "dx_error" else "dx_forecast")
                enkf_assignments, Raised ValueError),
      esrf_analysis_update
        (Build_EnsembleSquareRootFilter (fun=> [:: N; Dx]) [:: Dx; Dx])
        [:: N; Dz] [:: L] =
        if accepted then (esrf_assignments, returned)
        else (through "k_gain" esrf_assignments, Raised ValueError),
      [/\ woodbury [::] [:: L] = woodbury_observed,
          woodbury [:: Dx] [:: L] = woodbury_observed &
          woodbury [:: Dx; Dx] [:: L] = woodbury_observed],
      local_analysis_update [:: N; Dz] [:: N; Dx] [:: L] [:: Dx] [:: Dx] =
        if accepted then (letkf_assignments, Returned [:: N; Dz])
        else (through "dw_matrix" letkf_assignments, Raised ValueError) &
      woodbury [:: P; P] [:: Dx] =
        if P == Dx then woodbury_consistent
        else (through "dx_error" wesrf_assignments, Raised ValueError)].
Proof.
have sh0 n s : np_shape (n :: s) 0 = Returned n by [].
have mean_cons n s : Shapes.np_mean0 (n :: s) = Returned s by [].
move=> accepted returned woodbury woodbury_consistent woodbury_observed.
split; split.
- rewrite /enkf_analysis_update trace_bind_ok mean_cons /= np_broadcast_mv.
  by rewrite trace_bind_ok; eexists.
- rewrite /esrf_analysis_update sh0 trace_bind_ok mean_cons trace_bind_ok.
  by rewrite np_broadcast_mv !trace_bind_ok; eexists.
- rewrite /wesrf_analysis_update sh0 trace_bind_ok mean_cons trace_bind_ok.
  by rewrite np_broadcast_mv !trace_bind_ok; eexists.
- rewrite /local_analysis_update sh0 trace_bind_ok mean_cons trace_bind_ok.
  by rewrite np_broadcast_mv !trace_bind_ok; eexists.
- exact: enkf_observed_length.
- exact: esrf_observed_length.
- by split; apply: wesrf_observed_length; rewrite !inE eqxx ?orbT.
- exact: letkf_observed_length.
- exact: wesrf_precision_dimension.
Qed.

(** C7 as worded fails.  With two particles and a two-dimensional noise
    model, an observed vector of length 3 is rejected only by the
    broadcast inside the mean update of the square-root filter, after nine
    assignments that include an eigendecomposition and the gain; the
    Woodbury and perturbed-observation updates reject it at [dx_error],
    after six and three assignments; a precision matrix of the wrong
    dimension is rejected only by the product that forms [a_matrix]; and
    an observed vector of length 1 is not rejected at all.  The error is
    numpy's own [ValueError] every time. *)
Lemma shape_mismatch_counterexample :
  let sq := Build_EnsembleSquareRootFilter (fun=> [:: 2; 2]) [:: 2; 2] in
  let wb := Build_WoodburyEnsembleSquareRootFilter (fun=> [:: 2; 2])
              [:: 2; 2] in
  let wb3 := Build_WoodburyEnsembleSquareRootFilter (fun=> [:: 2; 2])
               [:: 3; 3] in
  [/\ esrf_analysis_update sq [:: 2; 1] [:: 3] =
        ([:: "n_particles"; "z_mean_forecast"; "dz_forecast"; "x_forecast";
             "x_mean_forecast"; "dx_forecast"; "c_matrix";
             "eigval_c, eigvec_c"; "k_gain"], Raised ValueError),
      wesrf_analysis_update wb false [:: 2; 1] [:: 3] =
        ([:: "n_particles"; "z_mean_forecast"; "dz_forecast"; "x_forecast";
             "x_mean_forecast"; "dx_forecast"], Raised ValueError),
      enkf_analysis_update (fun=> [:: 2; 2]) [:: 2; 1] [:: 3] =
        ([:: "x_forecast"; "dz_forecast"; "dx_forecast"], Raised ValueError),
      wesrf_analysis_update wb3 false [:: 2; 1] [:: 2] =
        ([:: "n_particles"; "z_mean_forecast"; "dz_forecast"; "x_forecast";
             "x_mean_forecast"; "dx_forecast"; "dx_error"],
         Raised ValueError) &
      (esrf_analysis_update sq [:: 2; 1] [:: 1]).2 =
        Returned ([:: 2; 1], [:: 1], [:: 1])].
Proof. by []. Qed.

End ShapeErrors.

(** * The deterministic updates return the statistics of their ensemble *)

(** The row of ones: multiplying by it on the left sums the columns. *)
Definition ones_row n : 'rV[R]_n := const_mx 1.

Lemma ones_rowE n d (A : 'M[R]_(n, d)) j :
  (ones_row n *m A) 0 j = \sum_i A i j.
Proof. by rewrite mxE; apply: eq_bigr => i _; rewrite mxE mul1r. Qed.

Lemma ones_row_centred n d (A : 'M[R]_(n, d)) :
  ones_row n *m np_sub_row A (np_mean0 A) = 0.
Proof.
apply/rowP => j; rewrite ones_rowE [RHS]mxE.
case: n A => [|n] A; first by rewrite big_ord0.
have := np_mean0_centred A j; rewrite [LHS]mxE => /eqP.
by rewrite mulf_eq0 invr_eq0 pnatr_eq0 orbF => /eqP.
Qed.

Section SampleStatistics.

Variables (n d : nat).


End SampleStatistics.

Section NullVector.

Variable n : nat.


End NullVector.

Lemma np_sqrt1 : np_sqrt 1 = 1.
Proof. exact: sqrt_1. Qed.

Section ReturnedStatistics.

Variable la : linalg.
Variables (N Dz Dx : nat).
Variables (z_forecast : 'M[R]_(N, Dz)) (x_observed : 'rV[R]_Dx) (t : nat).
Hypothesis N_gt0 : (0 < N)%N.





End ReturnedStatistics.

(** * A second worked example

    Two particles at 1 and -1, observed directly with unit noise.  The
    innovation covariance is the 1 x 1 matrix 3 and the matrix m of both
    deterministic updates is (1/3) [[1, -1], [-1, 1]], with the eigenvalues
    0 and 2/3; [pair_eigh] is exact on both. *)

Definition pair_eigh n (a : 'M[R]_n) : 'rV[R]_n * 'M[R]_n :=
  if (n == 1)%N then ex_eigh a else eng_eigh (- (3^-1)) a.

Definition pair_linalg : linalg :=
  Linalg pair_eigh (eng_solve (- (3^-1))) ex_pinv ex_svd.

Lemma pair_eigh_c :
  eigh_spec (esrf_c_matrix ex_sq eng_z 0)
            (la_eigh pair_linalg (esrf_c_matrix ex_sq eng_z 0)).
Proof. exact: ex_eigh_spec. Qed.

Lemma pair_inv_sqrt2 : (np_sqrt 2)^-1 * (np_sqrt 2)^-1 = 2^-1.
Proof. by rewrite -invfM np_sqrt_sqr // ler0n. Qed.

Lemma pair_eigh_m_esrf :
  eigh_spec (esrf_m_matrix pair_linalg ex_sq eng_z 0)
            (la_eigh pair_linalg (esrf_m_matrix pair_linalg ex_sq eng_z 0)).
Proof.
have hs := pair_inv_sqrt2; set s := (np_sqrt 2)^-1 in hs.
split; rewrite /= -/s; apply/matrixP => i j;
  case: i => [[|[|i]] hi] //; case: j => [[|[|j]] hj] //;
  do ?[rewrite mxE | rewrite big_ord_recl | rewrite big_ord0] => /=;
  rewrite ?mulr0n ?mulr1n; try nra;
  rewrite /esrf_n_particles; set rhs := (X in _ = X);
  (have -> : rhs = (1 - 3^-1) * (s * s) by rewrite /rhs; ring) ||
  (have -> : rhs = - ((1 - 3^-1) * (s * s)) by rewrite /rhs; ring);
  by rewrite hs; field.
Qed.


Lemma pair_solve_d :
  solve_spec (wesrf_d_matrix ex_wb eng_z 0) (wesrf_c_matrix ex_wb eng_z 0)
             (wesrf_e_matrix pair_linalg ex_wb eng_z 0).
Proof.
move=> _; apply/matrixP => i j;
  case: i => [[|[|i]] hi] //; case: j => [[|[|j]] hj] //;
  do ?[rewrite mxE | rewrite big_ord_recl | rewrite big_ord0] => /=;
  rewrite ?mulr0n ?mulr1n /wesrf_n_particles; field.
Qed.

(** ** A worked example for the localised update

    Two particles at 1 and -1, observed directly with unit noise standard
    deviation, unit localisation weight and inflation factor 2.  The scaled
    observation deviations are the column (1, -1); [pair_svd] is its
    singular value decomposition, with the singular value sqrt 2. *)

Definition pair_svd m n (a : 'M[R]_(m, n)) :
    'M[R]_m * 'rV[R]_(minn m n) * 'M[R]_n :=
  (\matrix_(i, j) (if ((i : nat) == 1%N) && ((j : nat) == 0%N)
                   then - (np_sqrt 2)^-1 else (np_sqrt 2)^-1),
   const_mx (np_sqrt 2), 1%:M).

Definition pair_local_linalg : linalg :=
  Linalg pair_eigh (eng_solve (- (3^-1))) ex_pinv pair_svd.

Definition pair_lt : LocalEnsembleTransformKalmanFilter :=
  Build_LocalEnsembleTransformKalmanFilter 2.

Lemma np_sqrt2_gt0 : 0 < np_sqrt 2.
Proof.
have h : np_sqrt 2 * np_sqrt 2 = 2 by rewrite np_sqrt_sqr // ler0n.
have : 0 <= np_sqrt 2 by apply/RlebP; exact: sqrt_pos.
rewrite le_eqVlt => /orP[/eqP e|//].
by move: h; rewrite -e mul0r => /eqP; rewrite eq_sym pnatr_eq0.
Qed.

Lemma pair_svd_spec :
  svd_spec
    (np_mul_row (letkf_dx_forecast eng_z)
       (map_mx np_sqrt (letkf_eff_inv_obs_var (const_mx 1) (const_mx 1))))
    (letkf_svd pair_local_linalg eng_z (const_mx 1) (const_mx 1 : 'rV[R]_1)).
Proof.
have hs := pair_inv_sqrt2; set s := (np_sqrt 2)^-1 in hs.
have s2 : np_sqrt 2 * s = 1 by rewrite /s divff // lt0r_neq0 // np_sqrt2_gt0.
split.
- rewrite /= -/s; apply/matrixP => i j;
  case: i => [[|[|i]] hi] //; case: j => [[|[|j]] hj] //;
  do ?[rewrite mxE | rewrite big_ord_recl | rewrite big_ord0] => /=;
  rewrite ?mulr0n ?mulr1n; nra.
- by rewrite /= trmx1 mulmx1.
- by move=> k; rewrite /= mxE ltW // np_sqrt2_gt0.
- rewrite /= -/s mulmx1; apply/matrixP => i j; rewrite !ord1.
  case: i => [[|[|i]] hi] //;
  do ?[rewrite mxE | rewrite big_ord_recl | rewrite big_ord0] => /=.
  all: rewrite ?mulr0n ?mulr1n expr1n divr1 np_sqrt1 insubT /= mxE.
  all: by rewrite ?mulNr (mulrC s) s2; lra.
Qed.

Lemma np_sqrt2_sq : np_sqrt 2 ^+ 2 = 2.
Proof. by rewrite expr2 np_sqrt_sqr // ler0n. Qed.

Lemma pair_w_mean :
  letkf_w_mean pair_local_linalg pair_lt eng_z ex_x (const_mx 1) (const_mx 1) =
  \col_i (if (i : nat) == 0%N then 2 / 5 else - (2 / 5)).
Proof.
have hs := pair_inv_sqrt2; set s := (np_sqrt 2)^-1 in hs.
apply/matrixP => i j; rewrite !ord1.
case: i => [[|[|i]] hi] //;
  do ?[rewrite mxE | rewrite big_ord_recl | rewrite big_ord0] => /=;
  rewrite ?mulr0n ?mulr1n /letkf_n_p insubT /= insubF //= mxE np_sqrt2_sq -/s.
- set lhs := (X in X = _).
  have -> : lhs = 4 / 5 * (s * s) by rewrite /lhs; field.
  by rewrite hs; field.
- set lhs := (X in X = _).
  have -> : lhs = - (4 / 5 * (s * s)) by rewrite /lhs; field.
  by rewrite hs; field.
Qed.

(** * The inverse computed from an eigendecomposition *)

Section EighInverse.

Variable n : nat.
Variables (a : 'M[R]_n) (wv : 'rV[R]_n * 'M[R]_n).
Hypothesis spec : eigh_spec a wv.
Hypothesis pd : posdef a.

Let ai : 'M[R]_n := np_div_row wv.2 wv.1 *m wv.2^T.

Lemma eigh_inverse_l : ai *m a = 1%:M.
Proof.
apply: eigh_inverse => // j.
exact: lt0r_neq0 (eigh_posdef_eigval j spec pd).
Qed.

Lemma eigh_inverse_r : a *m ai = 1%:M.
Proof. exact: mulmx1C eigh_inverse_l. Qed.

Lemma eigh_inverse_sym : ai^T = ai.
Proof. by rewrite /ai np_div_rowE !trmx_mul trmxK tr_diag_mx mulmxA. Qed.

(** The quadratic form of the inverse is that of the matrix at the
    transformed vector. *)
Lemma eigh_inverse_quad (u : 'rV[R]_n) :
  u *m ai *m u^T = (u *m ai) *m a *m (u *m ai)^T.
Proof.
rewrite trmx_mul eigh_inverse_sym -[RHS]mulmxA [a *m _]mulmxA.
by rewrite eigh_inverse_r mul1mx.
Qed.

End EighInverse.

(** * Eigenvalues of the reduced-update matrix *)

Lemma row_sqnormB n (r g : 'rV[R]_n) :
  ((r - g) *m (r - g)^T) 0 0 =
  (r *m r^T) 0 0 - (r *m g^T) 0 0 - (g *m r^T) 0 0 + (g *m g^T) 0 0.
Proof.
have e (a b : 'rV[R]_n) : (a *m b^T) 0 0 = \sum_k a 0 k * b 0 k.
  by rewrite mxE; apply: eq_bigr => k _; rewrite mxE.
rewrite !e -!sumrB -big_split /=; apply: eq_bigr => k _.
by rewrite !mxE; ring.
Qed.

Section ReducedEigenvalues.

Variable la : linalg.
Variables (N Dz Dx : nat).
Variable sq : EnsembleSquareRootFilter N Dz Dx.
Variables (z_forecast : 'M[R]_(N, Dz)) (x_observed : 'rV[R]_Dx) (t : nat).

Hypothesis N_ge2 : (2 <= N)%N.
Hypothesis covar_posdef : posdef (obser_noise_covar sq).
Hypothesis eigh_c :
  eigh_spec (esrf_c_matrix sq z_forecast t)
            (la_eigh la (esrf_c_matrix sq z_forecast t)).
Hypothesis eigh_m :
  eigh_spec (esrf_m_matrix la sq z_forecast t)
            (la_eigh la (esrf_m_matrix la sq z_forecast t)).

Let X := esrf_dx_forecast sq z_forecast t.
Let C := esrf_c_matrix sq z_forecast t.
Let Ci : 'M[R]_Dx :=
  np_div_row (esrf_eigvec_c la sq z_forecast t)
             (esrf_eigval_c la sq z_forecast t) *m
  (esrf_eigvec_c la sq z_forecast t)^T.

Lemma esrf_m_matrixE : esrf_m_matrix la sq z_forecast t = X *m Ci *m X^T.
Proof. by rewrite /esrf_m_matrix /Ci !mulmxA. Qed.

Lemma esrf_C_posdef : posdef C.
Proof. exact: esrf_c_matrix_posdef. Qed.

(** The quadratic form of m at a unit vector lies between 0 and 1. *)
Lemma esrf_m_quad_bounds (r : 'rV[R]_N) :
  (r *m r^T) 0 0 = 1 ->
  0 <= (r *m esrf_m_matrix la sq z_forecast t *m r^T) 0 0 <= 1.
Proof.
move=> r1; set lam := (_ *m _ *m _) 0 0.
pose w := r *m X *m Ci; pose g := w *m X^T.
have lamC : lam = (w *m C *m w^T) 0 0.
  rewrite /lam esrf_m_matrixE.
  have -> : r *m (X *m Ci *m X^T) *m r^T = (r *m X) *m Ci *m (r *m X)^T.
    by rewrite trmx_mul !mulmxA.
  by rewrite (eigh_inverse_quad eigh_c esrf_C_posdef).
have lamg : lam = (g *m r^T) 0 0.
  by rewrite /lam /g /w esrf_m_matrixE !mulmxA.
have gle : (g *m g^T) 0 0 <= lam.
  rewrite lamC /C /esrf_c_matrix quadD quadZ -/X.
  rewrite ler_wpDr ?mulr_ge0 ?posdef_quad_ge0 //; last first.
    by rewrite /g trmx_mul trmxK !mulmxA.
  by rewrite ltW // n_particles_gt1.
have lam0 : 0 <= lam by rewrite lamC posdef_quad_ge0 //; exact: esrf_C_posdef.
rewrite lam0 /=.
have rg : (r *m g^T) 0 0 = lam.
  by rewrite lamg -[r *m g^T]trmxK trmx_mul trmxK mxE.
have := row_sqnorm_ge0 (r - g).
rewrite row_sqnormB r1 rg -lamg.
by move: gle; set gg := (g *m g^T) 0 0 => gle h; lra.
Qed.

Lemma esrf_eigval_m_bounds i :
  0 <= esrf_eigval_m la sq z_forecast t 0 i <= 1.
Proof.
rewrite /esrf_eigval_m (eigh_eigval i eigh_m); apply: esrf_m_quad_bounds.
case: eigh_m => vtv _.
by rewrite tr_row trmxK colE mulmxA -row_mul vtv row1 mul_delta_mx !mxE !eqxx.
Qed.

Lemma esrf_clip_id :
  np_clip_above (esrf_eigval_m la sq z_forecast t) 1 =
  esrf_eigval_m la sq z_forecast t.
Proof.
apply/rowP => i; rewrite mxE; have /andP[_ le1] := esrf_eigval_m_bounds i.
by rewrite minEle le1.
Qed.

Lemma esrf_sqrt_argsE i :
  esrf_sqrt_args la sq z_forecast t 0 i =
  1 - esrf_eigval_m la sq z_forecast t 0 i.
Proof.
rewrite mxE esrf_clip_id ger0_norm // subr_ge0.
by have /andP[] := esrf_eigval_m_bounds i.
Qed.

(** X3: with a positive-definite noise covariance, at least two particles
    and exact eigendecompositions, every eigenvalue of m lies between 0
    and 1; the square-root update then raises no warning, the clip changes
    nothing and the square roots are those of 1 minus the eigenvalue. *)
Theorem esrf_never_warns :
  [/\ forall i, 0 <= esrf_eigval_m la sq z_forecast t 0 i <= 1,
      (esrf_analysis_update la sq z_forecast x_observed t).2 = [::],
      np_clip_above (esrf_eigval_m la sq z_forecast t) 1 =
        esrf_eigval_m la sq z_forecast t &
      forall i, esrf_sqrt_args la sq z_forecast t 0 i =
                1 - esrf_eigval_m la sq z_forecast t 0 i].
Proof.
split; [exact: esrf_eigval_m_bounds | | exact: esrf_clip_id
       | exact: esrf_sqrt_argsE].
rewrite /= /eigenvalue_warnings /np_any_gt.
case: existsP => [[i]|_]; last by rewrite andbF.
by have /andP[_] := esrf_eigval_m_bounds i; rewrite leNgt => /negbTE ->.
Qed.

Lemma esrf_sqrt_matrix_sym :
  (esrf_sqrt_matrix la sq z_forecast t)^T = esrf_sqrt_matrix la sq z_forecast t.
Proof.
by rewrite /esrf_sqrt_matrix np_mul_rowE !trmx_mul trmxK tr_diag_mx mulmxA.
Qed.

Lemma esrf_sqrt_matrix_sq :
  esrf_sqrt_matrix la sq z_forecast t *m esrf_sqrt_matrix la sq z_forecast t =
  1%:M - esrf_m_matrix la sq z_forecast t.
Proof.
have args := esrf_sqrt_argsE.
have vvt := eigh_orthoC eigh_m; case: (eigh_m) => vtv me.
pose V := esrf_eigvec_m la sq z_forecast t.
pose f := map_mx np_sqrt (esrf_sqrt_args la sq z_forecast t).
have -> : esrf_sqrt_matrix la sq z_forecast t = V *m diag_mx f *m V^T.
  by rewrite /esrf_sqrt_matrix np_mul_rowE.
have -> : V *m diag_mx f *m V^T *m (V *m diag_mx f *m V^T) =
          V *m (diag_mx f *m (V^T *m V) *m diag_mx f) *m V^T.
  by rewrite !mulmxA.
rewrite [V^T *m V]vtv mulmx1 mulmx_diag.
have -> : diag_mx (\row_j (f 0 j * f 0 j)) =
          1%:M - diag_mx (esrf_eigval_m la sq z_forecast t).
  rewrite -diag_const_mx -linearB /=; congr diag_mx; apply/rowP => j.
  have fj : f 0 j = np_sqrt (esrf_sqrt_args la sq z_forecast t 0 j).
    by rewrite /f mxE.
  have a0 : 0 <= 1 - esrf_eigval_m la sq z_forecast t 0 j.
    by rewrite subr_ge0; have /andP[] := esrf_eigval_m_bounds j.
  rewrite [LHS]mxE fj np_sqrt_sqr args //.
  by rewrite [RHS]mxE [X in _ = X + _]mxE [X in _ = _ + X]mxE.
by rewrite mulmxBr mulmxBl mulmx1 [V *m V^T]vvt [in RHS]me.
Qed.

(** X4: under the same conditions the analysis deviations carry the
    Kalman covariance update: dZ_a^T dZ_a = dZ^T dZ - (dX^T dZ)^T K. *)
Theorem esrf_covariance_update :
  (esrf_dz_analysis la sq z_forecast t)^T *m esrf_dz_analysis la sq z_forecast t
  = (esrf_dz_forecast z_forecast)^T *m esrf_dz_forecast z_forecast -
    (X^T *m esrf_dz_forecast z_forecast)^T *m esrf_k_gain la sq z_forecast t.
Proof.
rewrite /esrf_dz_analysis trmx_mul esrf_sqrt_matrix_sym.
set S := esrf_sqrt_matrix _ _ _ _; set dZ := esrf_dz_forecast _.
have -> : dZ^T *m S *m (S *m dZ) = dZ^T *m (S *m S) *m dZ by rewrite !mulmxA.
rewrite esrf_sqrt_matrix_sq mulmxBr mulmx1 mulmxBl; congr (_ - _).
by rewrite esrf_m_matrixE /esrf_k_gain -/X -/dZ trmx_mul trmxK !mulmxA.
Qed.

End ReducedEigenvalues.

(** * The two deterministic updates agree on the deviations *)

Section DeviationAgreement.

Variable la : linalg.
Variables (N Dz Dx : nat).
Variable wb : WoodburyEnsembleSquareRootFilter N Dz Dx.
Variable sq : EnsembleSquareRootFilter N Dz Dx.
Variables (z_forecast : 'M[R]_(N, Dz)) (x_observed : 'rV[R]_Dx) (t : nat).

Hypothesis N_ge2 : (2 <= N)%N.
Hypothesis same_obs :
  esrf_observation_func sq z_forecast t = wesrf_observation_func wb z_forecast t.
Hypothesis covar_posdef : posdef (obser_noise_covar sq).
Hypothesis preci_inverse :
  preci_matrix (obser_noise_preci wb) *m obser_noise_covar sq = 1%:M.
Hypothesis eigh_c :
  eigh_spec (esrf_c_matrix sq z_forecast t)
            (la_eigh la (esrf_c_matrix sq z_forecast t)).
Hypothesis solve_d :
  solve_spec (wesrf_d_matrix wb z_forecast t) (wesrf_c_matrix wb z_forecast t)
             (wesrf_e_matrix la wb z_forecast t).

Lemma same_m_matrix :
  esrf_m_matrix la sq z_forecast t = wesrf_m_matrix la wb z_forecast t.
Proof.
rewrite /wesrf_m_matrix /wesrf_c_matrix -mulmxA -mulmxBr.
rewrite (woodbury_push_through N_ge2 same_obs) //.
rewrite np_div_scalarE -!scalemxAr scalerA.
rewrite (mulVf (lt0r_neq0 (n_particles_gt1 N_ge2))) scale1r.
by rewrite /esrf_m_matrix (same_dx_forecast same_obs) !mulmxA.
Qed.

(** X5: under the conditions of the agreement of the means, the two
    updates also form the same matrix m, the same analysis deviations and
    return the same spread. *)
Theorem esrf_wesrf_same_deviations :
  [/\ esrf_m_matrix la sq z_forecast t = wesrf_m_matrix la wb z_forecast t,
      esrf_dz_analysis la sq z_forecast t =
        wesrf_dz_analysis la wb z_forecast t &
      (esrf_analysis_update la sq z_forecast x_observed t).1.2 =
        (wesrf_analysis_update la wb z_forecast x_observed t).1.2].
Proof.
have em := same_m_matrix.
have ed : esrf_dz_analysis la sq z_forecast t =
          wesrf_dz_analysis la wb z_forecast t.
  rewrite /esrf_dz_analysis /wesrf_dz_analysis /esrf_sqrt_matrix.
  rewrite /wesrf_sqrt_matrix /esrf_eigvec_m /wesrf_eigvec_m em.
  congr (np_mul_row _ (map_mx _ _) *m _ *m _).
  apply/rowP => i; rewrite /esrf_sqrt_args /wesrf_sqrt_args.
  rewrite /esrf_eigval_m /wesrf_eigval_m em mxE [RHS]mxE ger0_norm //.
  by rewrite subr_ge0 mxE ge_min lexx orbT.
by split=> //=; rewrite ed.
Qed.

End DeviationAgreement.

(** * An ensemble without spread *)

Section CollapsedEnsemble.

Variable la : linalg.
Variables (N Dz Dx : nat).
Variables (z_forecast : 'M[R]_(N, Dz)) (v : 'rV[R]_Dz).

Hypothesis N_gt0 : (0 < N)%N.
Hypothesis collapsed : forall i j, z_forecast i j = v 0 j.

Lemma collapsed_mean : np_mean0 z_forecast = v.
Proof.
apply/rowP => j; rewrite mxE (eq_bigr (fun=> v 0 j)) //.
by rewrite sumr_const card_ord -mulr_natr mulfK // pnatr_eq0 -lt0n.
Qed.

Lemma collapsed_dz : np_sub_row z_forecast (np_mean0 z_forecast) = 0.
Proof.
by apply/matrixP => i j; rewrite collapsed_mean !mxE collapsed subrr.
Qed.

Lemma collapsed_row_add : np_row_add v (0 : 'M[R]_(N, Dz)) = z_forecast.
Proof. by apply/matrixP => i j; rewrite !mxE addr0 collapsed. Qed.

Lemma np_spread0 : map_mx np_sqrt (np_mean0 (np_square (0 : 'M[R]_(N, Dz)))) = 0.
Proof.
apply/rowP => j; rewrite !mxE (eq_bigr (fun=> 0)) ?big1 ?mul0r ?np_sqrt0 //.
by move=> i _; rewrite !mxE expr0n.
Qed.

(** X6: an ensemble whose particles are all equal is left as it is by
    every update, whatever is observed, wherever the update divides by
    nothing that is zero.  The perturbed-observation update divides by
    nothing.  The square-root update divides by the eigenvalues
    [eigval_c], which must be nonzero (they are positive for two or more
    particles, a positive-definite noise covariance and an exact [eigh]).
    The Woodbury update needs two particles or more, for the division by
    [n_particles - 1], and a nonsingular [d_matrix], for [la.solve] to
    return.  The localised update needs two particles or more, nonzero
    noise standard deviations, non-negative localisation weights and a
    positive inflation factor.  The analysis ensemble is then the forecast
    ensemble, and the mean and spread returned by the two deterministic
    updates are the common particle and zero. *)
Theorem collapsed_ensemble_fixed
    (rng : Type) (kf : EnsembleKalmanFilter N Dz Dx rng)
    (sq : EnsembleSquareRootFilter N Dz Dx)
    (wb : WoodburyEnsembleSquareRootFilter N Dz Dx)
    (lt : LocalEnsembleTransformKalmanFilter)
    (x_forecast : 'M[R]_(N, Dx))
    (x_observed obs_noise_std weights : 'rV[R]_Dx) (t : nat) (g : rng) :
  [/\ (enkf_analysis_update la kf z_forecast x_observed t g).1.1.1 =
        z_forecast,
      ((forall j, esrf_eigval_c la sq z_forecast t 0 j != 0) ->
       (esrf_analysis_update la sq z_forecast x_observed t).1 =
         (z_forecast, v, 0)),
      ((2 <= N)%N -> wesrf_d_matrix wb z_forecast t \in unitmx ->
       (wesrf_analysis_update la wb z_forecast x_observed t).1 =
         (z_forecast, v, 0)) &
      ((2 <= N)%N -> (forall j, obs_noise_std 0 j != 0) ->
       (forall j, 0 <= weights 0 j) -> 0 < inflation_factor lt ->
       local_analysis_update la lt z_forecast x_forecast x_observed
         obs_noise_std weights = z_forecast)].
Proof.
split.
- rewrite /enkf_analysis_update; case: observation_sampler => x_f g' /=.
  by rewrite collapsed_dz mulmx0 addr0.
- move=> _.
  rewrite /esrf_analysis_update /esrf_dz_analysis /esrf_z_mean_analysis /=.
  rewrite /esrf_k_gain /esrf_dz_forecast /esrf_z_mean_forecast collapsed_dz.
  by rewrite !mulmx0 addr0 collapsed_mean collapsed_row_add np_spread0.
- move=> _ _.
  rewrite /wesrf_analysis_update /wesrf_dz_analysis /wesrf_z_mean_analysis /=.
  rewrite /wesrf_dz_forecast /wesrf_z_mean_forecast collapsed_dz !mulmx0.
  rewrite np_div_scalarE scaler0 addr0 collapsed_mean collapsed_row_add.
  by rewrite np_spread0.
- move=> _ _ _ _.
  rewrite /local_analysis_update /letkf_dz_forecast /letkf_z_mean_forecast.
  by rewrite collapsed_dz mulmx0 collapsed_mean collapsed_row_add.
Qed.

End CollapsedEnsemble.

(** * An observation equal to the predicted mean *)

Section ZeroInnovation.

Variable la : linalg.
Variables (N Dz Dx : nat).
Variables (z_forecast : 'M[R]_(N, Dz)) (t : nat).

(** X7: when the observed vector equals the mean of the predicted
    observations, the deterministic updates return the forecast mean and
    the localised update adds no mean weights: its ensemble is the
    forecast mean plus the transformed deviations.  This is so wherever
    the gain is a finite array: for the square-root update with a particle
    at least and nonzero eigenvalues [eigval_c]; for the Woodbury update
    with two particles or more and a nonsingular [d_matrix]; for the
    localised update with two particles or more, nonzero noise standard
    deviations, non-negative localisation weights and a positive inflation
    factor. *)
Theorem zero_innovation_keeps_mean
    (sq : EnsembleSquareRootFilter N Dz Dx)
    (wb : WoodburyEnsembleSquareRootFilter N Dz Dx)
    (lt : LocalEnsembleTransformKalmanFilter)
    (x_forecast : 'M[R]_(N, Dx)) (obs_noise_std weights : 'rV[R]_Dx) :
  [/\ ((0 < N)%N -> (forall j, esrf_eigval_c la sq z_forecast t 0 j != 0) ->
       (esrf_analysis_update la sq z_forecast
          (np_mean0 (esrf_observation_func sq z_forecast t)) t).1.1.2 =
         np_mean0 z_forecast),
      ((2 <= N)%N -> wesrf_d_matrix wb z_forecast t \in unitmx ->
       (wesrf_analysis_update la wb z_forecast
          (np_mean0 (wesrf_observation_func wb z_forecast t)) t).1.1.2 =
         np_mean0 z_forecast) &
      ((2 <= N)%N -> (forall j, obs_noise_std 0 j != 0) ->
       (forall j, 0 <= weights 0 j) -> 0 < inflation_factor lt ->
       local_analysis_update la lt z_forecast x_forecast (np_mean0 x_forecast)
         obs_noise_std weights =
       np_row_add (np_mean0 z_forecast)
         (letkf_dw_matrix la lt x_forecast obs_noise_std weights *m
          np_sub_row z_forecast (np_mean0 z_forecast)))].
Proof.
split.
- move=> _ _.
  rewrite /= /esrf_z_mean_analysis /esrf_x_mean_forecast /esrf_x_forecast.
  by rewrite subrr mul0mx addr0.
- move=> _ _.
  rewrite /= /wesrf_z_mean_analysis /wesrf_b_vector /wesrf_dx_error.
  rewrite /wesrf_x_mean_forecast /wesrf_x_forecast subrr !mul0mx subrr mul0mx.
  by rewrite np_div_scalarE scaler0 addr0.
- move=> _ _ _ _.
  rewrite /local_analysis_update; congr (np_row_add _ (_ *m _)).
  apply/matrixP => i j; rewrite mxE /letkf_w_mean /letkf_d_vector.
  rewrite /letkf_x_mean_forecast subrr trmx0 !mulmx0.
  rewrite [X in _ *m X](_ : _ = 0) ?mulmx0 ?mxE ?add0r //.
  by apply/colP => k; rewrite !mxE mulr0.
Qed.

End ZeroInnovation.

(** * An isotropic precision *)

(** X8: a scalar precision gives the same Woodbury update as the dense
    precision matrix that is the identity scaled by it, and as the
    diagonal precision with every entry equal to it. *)
Theorem wesrf_scalar_dense_same (la : linalg) (N Dz Dx : nat)
    (obs : 'M[R]_(N, Dz) -> nat -> 'M[R]_(N, Dx)) (p : R) (warn : bool)
    (z_forecast : 'M[R]_(N, Dz)) (x_observed : 'rV[R]_Dx) (t : nat) :
  wesrf_analysis_update la
    (Build_WoodburyEnsembleSquareRootFilter obs (PreciScalar p) warn)
    z_forecast x_observed t =
  wesrf_analysis_update la
    (Build_WoodburyEnsembleSquareRootFilter obs (PreciDense p%:M) warn)
    z_forecast x_observed t /\
  wesrf_analysis_update la
    (Build_WoodburyEnsembleSquareRootFilter obs (PreciScalar p) warn)
    z_forecast x_observed t =
  wesrf_analysis_update la
    (Build_WoodburyEnsembleSquareRootFilter obs (PreciDiag (const_mx p)) warn)
    z_forecast x_observed t.
Proof.
split; apply: wesrf_analysis_update_ext => //=.
by rewrite diag_const_mx.
Qed.

(** * Noiseless linear observations in the perturbed-observation update *)

Lemma np_mean0_mulmx n d e (A : 'M[R]_(n, d)) (H : 'M[R]_(d, e)) :
  np_mean0 (A *m H) = np_mean0 A *m H.
Proof.
have mE k (B : 'M[R]_(n, k)) : np_mean0 B = n%:R^-1 *: (ones_row n *m B).
  by apply/rowP => j; rewrite !mxE -ones_rowE mulrC mxE.
by rewrite !mE mulmxA -scalemxAl.
Qed.

Lemma np_sub_row_mulmx n d e (A : 'M[R]_(n, d)) (H : 'M[R]_(d, e)) :
  np_sub_row (A *m H) (np_mean0 (A *m H)) = np_sub_row A (np_mean0 A) *m H.
Proof.
have sE k (B : 'M[R]_(n, k)) v : np_sub_row B v = B - (ones_row n)^T *m v.
  apply/matrixP => i j; rewrite !mxE big_ord_recl big_ord0 !mxE.
  by rewrite mul1r addr0.
by rewrite !sE np_mean0_mulmx mulmxBl mulmxA.
Qed.

Section NoiselessObservations.

Variable la : linalg.
Variables (N Dz Dx : nat) (rng : Type).
Variable H : 'M[R]_(Dz, Dx).

(** The sampler of a linear observation operator without noise: it leaves
    the generator untouched. *)
Definition linear_sampler (z : 'M[R]_(N, Dz)) (t : nat) (g : rng) :
    'M[R]_(N, Dx) * rng :=
  (z *m H, g).

Variables (z_forecast : 'M[R]_(N, Dz)) (x_observed : 'rV[R]_Dx).
Variables (t : nat) (g : rng).

Let dx := np_sub_row (z_forecast *m H) (np_mean0 (z_forecast *m H)).

(** X9: with a noiseless linear observation operator, if [pinv] returns a
    left inverse of the observation deviations (they have full column
    rank), every particle of the analysis ensemble is mapped by the
    operator onto the observed vector itself. *)
Theorem enkf_noiseless_collapse :
  la_pinv la dx *m dx = 1%:M ->
  forall i j,
    ((enkf_analysis_update la (Build_EnsembleKalmanFilter linear_sampler)
        z_forecast x_observed t g).1.1.1 *m H) i j = x_observed 0 j.
Proof.
move=> pinvK i j; rewrite /enkf_analysis_update /= -/dx mulmxDl.
rewrite -[_ *m _ *m H]mulmxA -np_sub_row_mulmx -/dx -mulmxA pinvK mulmx1.
by rewrite !mxE addrC subrK.
Qed.

End NoiselessObservations.

(** * The mean of the localised analysis ensemble *)

(** A vector annihilating a matrix has no component along the left
    singular vectors of nonzero singular value. *)
Lemma svd_null_component m n (a : 'M[R]_(m, n)) usv (o : 'rV[R]_m)
    (i : 'I_m) (k : 'I_(minn m n)) :
  svd_spec a usv -> o *m a = 0 -> (k : nat) = i ->
  (o *m usv.1.1) 0 i * usv.1.2 0 k = 0.
Proof.
case=> utu vvt _ ae oa ki; set y := o *m usv.1.1.
have ys : y *m svd_diag usv.1.2 = 0.
  have -> : y *m svd_diag usv.1.2 = o *m a *m usv.2^T.
    by rewrite ae /y !mulmxA -[_ *m usv.2 *m _]mulmxA vvt mulmx1.
  by rewrite oa mul0mx.
have := congr1 (fun r : 'rV[R]_n => r 0 (widen_ord (geq_minr m n) k)) ys.
rewrite [RHS]mxE mxE (bigD1 i) //= big1 => [i' ne|].
  rewrite [svd_diag _ _ _]mxE /=; case: ifPn => [/eqP e|_]; last by rewrite mulr0.
  by case/eqP: ne; apply: val_inj; rewrite /= e.
by rewrite addr0 [svd_diag _ _ _]mxE /= -ki eqxx valK.
Qed.

Lemma np_row_addE n d (v : 'rV[R]_d) (A : 'M[R]_(n, d)) :
  np_row_add v A = (ones_row n)^T *m v + A.
Proof.
apply/matrixP => i j; rewrite mxE [RHS]mxE; congr (_ + _).
by rewrite [RHS]mxE big_ord_recl big_ord0 !mxE mul1r addr0.
Qed.

Section LocalMean.

Variable la : linalg.
Variables (N Dz Dx : nat).
Variable self : LocalEnsembleTransformKalmanFilter.
Variables (z_forecast : 'M[R]_(N, Dz)) (x_forecast : 'M[R]_(N, Dx)).
Variables (x_observed obs_noise_std weights : 'rV[R]_Dx).

Hypothesis N_ge2 : (2 <= N)%N.
Hypothesis inflation_ge1 : 1 <= inflation_factor self.
Hypothesis svd_ok :
  svd_spec
    (np_mul_row (letkf_dx_forecast x_forecast)
       (map_mx np_sqrt (letkf_eff_inv_obs_var obs_noise_std weights)))
    (letkf_svd la x_forecast obs_noise_std weights).

Let U := letkf_eigvec_p la x_forecast obs_noise_std weights.
Let infl := inflation_factor self.
Let kappa : R := 1 * (N%:R - 1) / infl.

Lemma letkf_ones_dw :
  ones_row N *m letkf_dw_matrix la self x_forecast obs_noise_std weights =
  np_sqrt infl *: ones_row N.
Proof.
have i0 : 0 < infl by exact: lt_le_trans ltr01 inflation_ge1.
have n0 : 0 < N%:R - 1 :> R by rewrite subr_gt0 ltr1n.
have k0 : 0 < kappa by rewrite /kappa mul1r divr_gt0.
have uut : U *m U^T = 1%:M by case: svd_ok => utu _ _ _; exact: mulmx1C.
have oa : ones_row N *m np_mul_row (letkf_dx_forecast x_forecast)
            (map_mx np_sqrt (letkf_eff_inv_obs_var obs_noise_std weights)) = 0.
  by rewrite np_mul_rowE mulmxA ones_row_centred mul0mx.
set y := ones_row N *m U.
have yp : y *m diag_mx (map_mx np_sqrt
            (letkf_eigval_p la self x_forecast obs_noise_std weights)) =
          np_sqrt (1 / kappa) *: y.
  apply/rowP => i.
  have fE : (map_mx np_sqrt
               (letkf_eigval_p la self x_forecast obs_noise_std weights)) 0 i
            = np_sqrt (1 / (kappa +
                oapp (fun k : 'I_(minn N Dx) =>
                        letkf_sing_val la x_forecast obs_noise_std weights 0 k
                        ^+ 2) 0 (insub (i : nat)))).
    by rewrite !mxE.
  rewrite mul_mx_diag [LHS]mxE fE [RHS]mxE mulrC.
  case: insubP => [k _ ki|_] /=; last by rewrite addr0.
  have /eqP := svd_null_component svd_ok oa ki.
  rewrite -/U -/y mulf_eq0 => /orP[/eqP ->|/eqP]; first by rewrite !mulr0.
  by rewrite /letkf_sing_val => ->; rewrite expr0n addr0.
rewrite /letkf_dw_matrix -scalemxAr np_mul_rowE !mulmxA -/U -/y yp.
rewrite -scalemxAl scalerA /y -mulmxA uut mulmx1; congr (_ *: _).
rewrite -np_sqrtM; [exact: ltW|by rewrite ltW // divr_gt0|].
have ni0 : infl != 0 by exact: lt0r_neq0.
have nn0 : N%:R - 1 != 0 :> R by exact: lt0r_neq0.
by congr np_sqrt; rewrite /kappa /letkf_n_p; field; rewrite ni0 nn0.
Qed.

Lemma letkf_w_matrixE :
  letkf_w_matrix la self x_forecast x_observed obs_noise_std weights =
  (ones_row N)^T *m
    (letkf_w_mean la self x_forecast x_observed obs_noise_std weights)^T +
  letkf_dw_matrix la self x_forecast obs_noise_std weights.
Proof.
apply/matrixP => i j; rewrite mxE [RHS]mxE; congr (_ + _).
by rewrite [RHS]mxE big_ord_recl big_ord0 !mxE mul1r addr0.
Qed.

(** X10: for nonzero noise standard deviations and any non-negative
    localisation weights (at least two particles, inflation factor at
    least 1, exact [svd]) the column means of the local analysis ensemble
    are the forecast means plus the forecast deviations weighted by
    [w_mean]. *)
Theorem letkf_analysis_mean :
  (forall j, obs_noise_std 0 j != 0) -> (forall j, 0 <= weights 0 j) ->
  np_mean0 (local_analysis_update la self z_forecast x_forecast x_observed
              obs_noise_std weights) =
  np_mean0 z_forecast +
  (letkf_w_mean la self x_forecast x_observed obs_noise_std weights)^T *m
  np_sub_row z_forecast (np_mean0 z_forecast).
Proof.
move=> _ _.
have N0 : (0 < N)%N by exact: ltnW.
have nn0 : N%:R != 0 :> R by rewrite pnatr_eq0 -lt0n.
set wm := letkf_w_mean _ _ _ _ _ _.
set dZ := np_sub_row _ _.
have WE := letkf_w_matrixE.
apply/rowP => j; rewrite /local_analysis_update np_mean0_row_add //.
rewrite [RHS]mxE; congr (_ + _).
rewrite mxE -ones_rowE -/dZ WE mulmxDl mulmxDr !mulmxA letkf_ones_dw.
rewrite -scalemxAl ones_row_centred scaler0 addr0.
have -> : ones_row N *m (ones_row N)^T = (N%:R)%:M.
  apply/matrixP => a b; rewrite !ord1 !mxE eqxx mulr1n.
  by rewrite (eq_bigr (fun=> 1)) ?sumr_const ?card_ord // => i _; rewrite !mxE mulr1.
by rewrite -mulmxA mul_scalar_mx mxE mulrC mulKf.
Qed.

(** X11: under the same conditions the deviations of the local analysis
    ensemble from its column means are the forecast deviations
    transformed by [dw_matrix]. *)
Theorem letkf_analysis_deviations :
  (forall j, obs_noise_std 0 j != 0) -> (forall j, 0 <= weights 0 j) ->
  let z_a := local_analysis_update la self z_forecast x_forecast x_observed
               obs_noise_std weights in
  np_sub_row z_a (np_mean0 z_a) =
  letkf_dw_matrix la self x_forecast obs_noise_std weights *m
  np_sub_row z_forecast (np_mean0 z_forecast).
Proof.
move=> _ _.
have N0 : (0 < N)%N by exact: ltnW.
move=> /=; rewrite /local_analysis_update np_sub_row_add //.
rewrite letkf_w_matrixE mulmxDl -mulmxA -np_row_addE np_sub_row_add //.
apply: np_sub_row0; apply/rowP => j.
rewrite mxE -ones_rowE mulmxA letkf_ones_dw -scalemxAl ones_row_centred.
by rewrite scaler0 !mxE mul0r.
Qed.

End LocalMean.

(** * The further properties on the worked examples *)



Lemma esrf_never_warns_witness :
  (esrf_analysis_update pair_linalg ex_sq eng_z ex_x 0).2 = [::].
Proof.
have [] // := @esrf_never_warns pair_linalg 2 1 1 ex_sq eng_z ex_x 0
  (leqnn 2) ex_covar_posdef pair_eigh_c pair_eigh_m_esrf.
Defined.

Lemma esrf_covariance_update_witness :
  (esrf_dz_analysis pair_linalg ex_sq eng_z 0)^T *m
  esrf_dz_analysis pair_linalg ex_sq eng_z 0 =
  (esrf_dz_forecast eng_z)^T *m esrf_dz_forecast eng_z -
  ((esrf_dx_forecast ex_sq eng_z 0)^T *m esrf_dz_forecast eng_z)^T *m
  esrf_k_gain pair_linalg ex_sq eng_z 0.
Proof.
exact: (@esrf_covariance_update pair_linalg 2 1 1 ex_sq eng_z 0
  (leqnn 2) ex_covar_posdef pair_eigh_c pair_eigh_m_esrf).
Defined.

Lemma ex_preci_inverse :
  preci_matrix (obser_noise_preci ex_wb) *m obser_noise_covar ex_sq = 1%:M.
Proof. by rewrite /obser_noise_covar /= trmx1 !mulmx1. Qed.

Lemma esrf_wesrf_same_deviations_witness :
  esrf_dz_analysis pair_linalg ex_sq eng_z 0 =
  wesrf_dz_analysis pair_linalg ex_wb eng_z 0.
Proof.
have [] // := @esrf_wesrf_same_deviations pair_linalg 2 1 1 ex_wb ex_sq eng_z
  ex_x 0 (leqnn 2) (erefl _) ex_covar_posdef ex_preci_inverse pair_eigh_c
  pair_solve_d.
Defined.

Lemma ex_pinv_left_inverse :
  ex_pinv (np_sub_row (eng_z *m 1%:M) (np_mean0 (eng_z *m 1%:M))) *m
  np_sub_row (eng_z *m 1%:M) (np_mean0 (eng_z *m 1%:M)) = 1%:M.
Proof.
rewrite /ex_pinv -mulmxA mulVmx // unitmxE det_mx11 unitfE.
do ?[rewrite mxE | rewrite big_ord_recl | rewrite big_ord0] => /=.
by rewrite lt0r_neq0 //; lra.
Qed.

Lemma enkf_noiseless_collapse_witness :
  ((enkf_analysis_update ex_linalg
      (Build_EnsembleKalmanFilter (@linear_sampler 2 1 1 unit 1%:M))
      eng_z ex_x 0 tt).1.1.1 *m 1%:M) ord0 ord0 = ex_x 0 ord0.
Proof.
exact: (@enkf_noiseless_collapse ex_linalg 2 1 1 unit 1%:M eng_z ex_x 0 tt
  ex_pinv_left_inverse ord0 ord0).
Defined.

Lemma pair_eigval_c_nonzero (z : 'M[R]_(2, 1)) j :
  esrf_eigval_c pair_local_linalg ex_sq z 0 0 j != 0.
Proof.
apply: lt0r_neq0; apply: (eigh_posdef_eigval j (ex_eigh_spec _)).
apply: posdef_gram_add; last exact: ex_covar_posdef.
by rewrite /esrf_n_particles subr_gt0 ltr1n.
Qed.

Lemma pair_d_matrix_unit (z : 'M[R]_(2, 1)) :
  wesrf_d_matrix ex_wb z 0 \in unitmx.
Proof. by apply: wesrf_d_matrix_unit => //; exact: posdef1. Qed.

Lemma unit_std_nonzero (j : 'I_1) : (const_mx 1 : 'rV[R]_1) 0 j != 0.
Proof. by rewrite mxE oner_neq0. Qed.

Lemma unit_weights_ge0 (j : 'I_1) : 0 <= (const_mx 1 : 'rV[R]_1) 0 j.
Proof. by rewrite mxE ler01. Qed.

Lemma pair_inflation_gt0 : 0 < inflation_factor pair_lt.
Proof. by rewrite /= ltr0n. Qed.

Lemma pair_inflation_ge1 : 1 <= inflation_factor pair_lt.
Proof. by rewrite /= ler1n. Qed.

Lemma collapsed_ensemble_fixed_witness :
  [/\ (enkf_analysis_update pair_local_linalg
         (Build_EnsembleKalmanFilter
            (fun (z : 'M[R]_(2, 1)) (_ : nat) (g : unit) => (z, g)))
         (const_mx 1) ex_x 0 tt).1.1.1 = const_mx 1,
      (esrf_analysis_update pair_local_linalg ex_sq (const_mx 1) ex_x 0).1 =
        (const_mx 1, const_mx 1, 0),
      (wesrf_analysis_update pair_local_linalg ex_wb (const_mx 1) ex_x 0).1 =
        (const_mx 1, const_mx 1, 0) &
      local_analysis_update pair_local_linalg pair_lt
        (const_mx 1 : 'M[R]_(2, 1)) eng_z ex_x (const_mx 1) (const_mx 1) =
      const_mx 1].
Proof.
have c (i : 'I_2) (j : 'I_1) :
    (const_mx 1 : 'M[R]_(2, 1)) i j = (const_mx 1 : 'rV[R]_1) 0 j.
  by rewrite !mxE.
have [kf sq wb lt] := @collapsed_ensemble_fixed pair_local_linalg 2 1 1
  (const_mx 1) (const_mx 1) (ltn0Sn 1) c unit
  (Build_EnsembleKalmanFilter (fun z _ g => (z, g))) ex_sq ex_wb pair_lt
  eng_z ex_x (const_mx 1) (const_mx 1) 0%N tt.
split; first exact: kf.
- exact: sq (pair_eigval_c_nonzero _).
- exact: wb (leqnn 2) (pair_d_matrix_unit _).
- exact: lt (leqnn 2) unit_std_nonzero unit_weights_ge0 pair_inflation_gt0.
Defined.

Lemma zero_innovation_keeps_mean_witness :
  [/\ (esrf_analysis_update pair_local_linalg ex_sq eng_z
         (np_mean0 (esrf_observation_func ex_sq eng_z 0)) 0).1.1.2 =
        np_mean0 eng_z,
      (wesrf_analysis_update pair_local_linalg ex_wb eng_z
         (np_mean0 (wesrf_observation_func ex_wb eng_z 0)) 0).1.1.2 =
        np_mean0 eng_z &
      local_analysis_update pair_local_linalg pair_lt eng_z eng_z
        (np_mean0 eng_z) (const_mx 1) (const_mx 1) =
      np_row_add (np_mean0 eng_z)
        (letkf_dw_matrix pair_local_linalg pair_lt eng_z (const_mx 1)
           (const_mx 1) *m np_sub_row eng_z (np_mean0 eng_z))].
Proof.
have [sq wb lt] := @zero_innovation_keeps_mean pair_local_linalg 2 1 1 eng_z
  0%N ex_sq ex_wb pair_lt eng_z (const_mx 1) (const_mx 1).
split.
- exact: sq (ltn0Sn 1) (pair_eigval_c_nonzero _).
- exact: wb (leqnn 2) (pair_d_matrix_unit _).
- exact: lt (leqnn 2) unit_std_nonzero unit_weights_ge0 pair_inflation_gt0.
Defined.

Lemma letkf_analysis_mean_witness :
  np_mean0 (local_analysis_update pair_local_linalg pair_lt eng_z eng_z ex_x
              (const_mx 1) (const_mx 1)) =
  np_mean0 eng_z +
  (letkf_w_mean pair_local_linalg pair_lt eng_z ex_x (const_mx 1)
     (const_mx 1))^T *m
  np_sub_row eng_z (np_mean0 eng_z).
Proof.
exact: (@letkf_analysis_mean pair_local_linalg 2 1 1 pair_lt eng_z eng_z ex_x
  (const_mx 1) (const_mx 1) (leqnn 2) pair_inflation_ge1 pair_svd_spec
  unit_std_nonzero unit_weights_ge0).
Defined.

Lemma letkf_analysis_deviations_witness :
  np_sub_row
    (local_analysis_update pair_local_linalg pair_lt eng_z eng_z ex_x
       (const_mx 1) (const_mx 1))
    (np_mean0
       (local_analysis_update pair_local_linalg pair_lt eng_z eng_z ex_x
          (const_mx 1) (const_mx 1)))
  = letkf_dw_matrix pair_local_linalg pair_lt eng_z (const_mx 1) (const_mx 1)
    *m np_sub_row eng_z (np_mean0 eng_z).
Proof.
exact: (@letkf_analysis_deviations pair_local_linalg 2 1 1 pair_lt eng_z eng_z
  ex_x (const_mx 1) (const_mx 1) (leqnn 2) pair_inflation_ge1 pair_svd_spec
  unit_std_nonzero unit_weights_ge0).
Defined.
